(** * The INI codec of the launcher: [IniFile] and its [Section] class

    A shallow embedding of the TypeScript rewrite of Dolphin's IniFile
    (classes [IniFile] and [Section]) and the properties of its parser,
    serializer and mutation interface.

    Conventions of the embedding.
    - A JavaScript string is the list of its UTF-16 code units ([N]).
    - The [Map<string, string>] of a section is a [gmap]; the code only uses
      [has], [get], [set] and [delete] on it, never its iteration order.
    - Arrays are lists.  A reference to a [Section] object held by the
      document is its position in the [sections] array.
    - A method that returns a value and may change its receiver is a function
      to a pair (result, receiver afterwards).
    - The text stream read by [load] is the sequence of lines that the
      line reader yields; the stream written by [save] is the sequence of
      texts passed to [out.write], each without the newline that ends it.
      Between the two is the file: the texts encoded as UTF-8, and the lines
      that the reader cuts the decoded text into ([reopen]).
    - The sections hold their raw lines by value.  [setLines] keeps the array
      of its caller, so an array can belong to two sections; the statements
      that depend on this are about a second embedding, in which the raw
      lines of a section are a reference into a store of arrays ([ShFile]),
      and [snapshot] relates the two. *)

From Stdlib Require Import String Ascii NArith ZArith.
From stdpp Require Import gmap list.

Local Open Scope Z_scope.

(** ** JavaScript strings *)

Abbreviation str := (list N).

(** The code unit of an ASCII character, and the string of a literal. *)
Definition code (a : ascii) : N := N_of_ascii a.
Definition lit (s : string) : str := N_of_ascii <$> list_ascii_of_string s.
Global Arguments code : simpl never.
Global Arguments lit : simpl never.

Module JS.

(** [s.indexOf(c)] for a one-character search string: -1 when absent. *)
Fixpoint indexOf_from (c : N) (s : str) (i : Z) : Z :=
  match s with
  | [] => -1
  | x :: s' => if N.eqb x c then i else indexOf_from c s' (i + 1)
  end.
Definition indexOf (s : str) (c : N) : Z := indexOf_from c s 0.

(** Clamping of an index argument to [0, length]. *)
Definition clamp (s : str) (n : Z) : nat :=
  Z.to_nat (Z.min (Z.max n 0) (Z.of_nat (length s))).

(** [s.substring(a, b)]: both ends clamped, swapped when [a > b]. *)
Definition substring (s : str) (a b : Z) : str :=
  let a' := clamp s a in
  let b' := clamp s b in
  take (Nat.max a' b' - Nat.min a' b') (drop (Nat.min a' b') s).

(** [s.substring(a)]. *)
Definition substring_from (s : str) (a : Z) : str := drop (clamp s a) s.

(** The start position of [substr] and [slice]: negative counts from the end. *)
Definition start_pos (s : str) (start : Z) : nat :=
  if start <? 0 then Z.to_nat (Z.max (Z.of_nat (length s) + start) 0)
  else Z.to_nat (Z.min start (Z.of_nat (length s))).

(** [s.substr(start, len)]. *)
Definition substr (s : str) (start len : Z) : str :=
  take (Z.to_nat (Z.max len 0)) (drop (start_pos s start) s).

(** [s.slice(start)]. *)
Definition slice_from (s : str) (start : Z) : str := drop (start_pos s start) s.

(** The class [\s] of a regular expression without the unicode flag:
    white space and line terminators. *)
Definition is_space (c : N) : bool :=
  ((9 <=? c) && (c <=? 13) || (c =? 32) || (c =? 160) || (c =? 5760)
   || (8192 <=? c) && (c <=? 8202) || (c =? 8232) || (c =? 8233)
   || (c =? 8239) || (c =? 8287) || (c =? 12288) || (c =? 65279))%N.

(** The class of the two quote characters, single and double. *)
Definition is_quote (c : N) : bool := ((c =? 39) || (c =? 34))%N.

(** [s.replace(/C+/g, r)] for a character class [C]: every maximal run of
    characters of the class is replaced by [r].  [in_run] tells that the
    character before belongs to a run already replaced. *)
Fixpoint replace_runs (C : N → bool) (r : str) (in_run : bool) (s : str) : str :=
  match s with
  | [] => []
  | c :: s' =>
      if C c then (if in_run then [] else r) ++ replace_runs C r true s'
      else c :: replace_runs C r false s'
  end.
Definition replace_all (C : N → bool) (r : str) (s : str) : str :=
  replace_runs C r false s.

(** [a.indexOf(x)] on an array of strings. *)
Fixpoint array_indexOf_from (x : str) (a : list str) (i : Z) : Z :=
  match a with
  | [] => -1
  | y :: a' => if bool_decide (y = x) then i else array_indexOf_from x a' (i + 1)
  end.
Definition array_indexOf (a : list str) (x : str) : Z := array_indexOf_from x a 0.

(** [a.splice(start, 1)]: removes one element at [start], where a negative
    [start] counts from the end; nothing is removed past the end. *)
Definition splice1 {A} (a : list A) (start : Z) : list A :=
  let i := if start <? 0 then Z.to_nat (Z.max (Z.of_nat (length a) + start) 0)
           else Z.to_nat (Z.min start (Z.of_nat (length a))) in
  delete i a.

(** The text of [undefined] in a template literal. *)
Definition undefined_text : str := lit "undefined".

End JS.

(** ** The data model *)

Record IniSection := mkSection {
  name : str;
  keysOrder : list str;
  lines : list str;
  values : gmap str str
}.

Record IniFile := mkIniFile { sections : list IniSection }.

(** [new Section(name)] and [new IniFile()]. *)
Definition new_Section (n : str) : IniSection := mkSection n [] [] ∅.
Definition new_IniFile : IniFile := mkIniFile [].

(** ** The methods of [Section] *)

Definition sec_set (key new_value : str) (s : IniSection) : IniSection :=
  let newKey := negb (bool_decide (is_Some (values s !! key))) in
  let keysOrder' := if newKey then keysOrder s ++ [key] else keysOrder s in
  mkSection (name s) keysOrder' (lines s) (<[key := new_value]> (values s)).

Definition sec_get (key default_value : str) (s : IniSection) : str * IniSection :=
  match values s !! key with
  | Some value => (value, s)
  | None => (default_value, s)
  end.

Definition sec_exists (key : str) (s : IniSection) : bool * IniSection :=
  (bool_decide (is_Some (values s !! key)), s).

Definition sec_delete (key : str) (s : IniSection) : bool * IniSection :=
  let success := bool_decide (is_Some (values s !! key)) in
  if success
  then (true, mkSection (name s)
                (JS.splice1 (keysOrder s) (JS.array_indexOf (keysOrder s) key))
                (lines s) (delete key (values s)))
  else (false, s).

(** [this.lines = lines], with the raw lines held by value.  The source keeps
    the array of the caller; what follows from that is in the embedding with
    shared arrays further down. *)
Definition sec_setLines (ls : list str) (s : IniSection) : IniSection :=
  mkSection (name s) (keysOrder s) ls (values s).

(** [lines.push(line)], as [load] does on the current section. *)
Definition sec_pushLine (line : str) (s : IniSection) : IniSection :=
  mkSection (name s) (keysOrder s) (lines s ++ [line]) (values s).

(** The branch on [remove_comments] has an empty body in the source. *)
Definition sec_getLines (remove_comments : bool) (s : IniSection) : list str * IniSection :=
  (filter (λ line, line ≠ [10%N] ∧ line ≠ []) (lines s), s).

(** ** The methods of [IniFile] *)

Definition parseLine (line : str) : option (str * str) :=
  if bool_decide (line = []) || bool_decide (head line = Some (code "#")) then None
  else
    let firstEquals := JS.indexOf line (code "=") in
    if bool_decide (firstEquals ≠ -1) then
      let keyOut := JS.replace_all JS.is_space [] (JS.substring line 0 firstEquals) in
      let retValueOut :=
        JS.replace_all JS.is_quote []
          (JS.replace_all JS.is_space [] (JS.substring_from line (firstEquals + 1))) in
      Some (keyOut, retValueOut)
    else Some ([], []).

(** [sections.find(...)]: the first section of that name, with its position. *)
Definition getSection (sectionName : str) (f : IniFile) : option (nat * IniSection) :=
  list_find (λ s, name s = sectionName) (sections f).

(** Returns the position of the section and the document afterwards. *)
Definition getOrCreateSection (section_name : str) (f : IniFile) : nat * IniFile :=
  match getSection section_name f with
  | Some (i, _) => (i, f)
  | None => (length (sections f), mkIniFile (sections f ++ [new_Section section_name]))
  end.

Definition deleteSection (section_name : str) (f : IniFile) : bool * IniFile :=
  match getSection section_name f with
  | None => (false, f)
  | Some (i, _) => (true, mkIniFile (delete i (sections f)))
  end.

Definition ini_exists (section_name : str) (f : IniFile) : bool :=
  bool_decide (is_Some (getSection section_name f)).

Definition setLines (section_name : str) (ls : list str) (f : IniFile) : IniFile :=
  let '(i, f') := getOrCreateSection section_name f in
  mkIniFile (alter (sec_setLines ls) i (sections f')).

Definition deleteKey (section_name key : str) (f : IniFile) : bool * IniFile :=
  match getSection section_name f with
  | None => (false, f)
  | Some (i, s) =>
      let '(r, s') := sec_delete key s in
      (r, mkIniFile (<[i := s']> (sections f)))
  end.

Definition getKeys (section_name : str) (f : IniFile) : list str :=
  match getSection section_name f with
  | None => []
  | Some (_, s) => keysOrder s
  end.

Definition getLines (section_name : str) (remove_comments : bool) (f : IniFile) : list str :=
  match getSection section_name f with
  | None => []
  | Some (_, s) => (sec_getLines remove_comments s).1
  end.

(** *** load *)

Definition BOM : str := [239; 187; 191]%N.

Definition raw_prefixes : list N := [code "$"; code "+"; code "*"].

(** The variables of the loop of [load]. *)
Record LoadState := mkLoadState {
  ls_file : IniFile;
  current_section : option nat;
  first_line : bool
}.

(** One iteration of the loop over the lines. *)
Definition load_step (st : LoadState) (line0 : str) : LoadState :=
  let line :=
    if first_line st && bool_decide (JS.substr line0 0 3 = BOM)
    then JS.slice_from line0 3 else line0 in
  if bool_decide (head line = Some (code "[")) then
    let endpos := JS.indexOf line (code "]") in
    if bool_decide (endpos ≠ -1) then
      let sub := JS.substr line 1 (endpos - 1) in
      let '(i, f') := getOrCreateSection sub (ls_file st) in
      mkLoadState f' (Some i) false
    else mkLoadState (ls_file st) (current_section st) false
  else
    match current_section st with
    | Some i =>
        let kv := parseLine line in
        let raw :=
          bool_decide (kv = None)
          || (negb (bool_decide (length line = 0%nat))
              && existsb (λ val, bool_decide (head line = Some val)) raw_prefixes) in
        if raw then
          mkLoadState (mkIniFile (alter (sec_pushLine line) i (sections (ls_file st))))
                      (Some i) false
        else
          match kv with
          | Some (key, value) =>
              mkLoadState (mkIniFile (alter (sec_set key value) i (sections (ls_file st))))
                          (Some i) false
          | None => mkLoadState (ls_file st) (Some i) false
          end
    | None => mkLoadState (ls_file st) None false
    end.

(** The state in which the loop starts. *)
Definition load_init (keep_current_data : bool) (f : IniFile) : LoadState :=
  mkLoadState (if keep_current_data then f else mkIniFile []) None true.

(** [load], on the lines that the reader yields. *)
Definition load (input : list str) (keep_current_data : bool) (f : IniFile) : bool * IniFile :=
  (true, ls_file (foldl load_step (load_init keep_current_data f) input)).

(** *** save *)

(** One [out.write] of a text followed by a newline. *)
Definition write_line (out : list str) (text : str) : list str := out ++ [text].

Definition value_text (v : option str) : str :=
  match v with Some x => x | None => JS.undefined_text end.

(** The body of the [forEach] over the sections. *)
Definition save_section (out : list str) (section : IniSection) : list str :=
  let out1 := write_line out ([code "["] ++ name section ++ [code "]"]) in
  if bool_decide (length (keysOrder section) = 0%nat) then
    let out2 := foldl write_line out1 (lines section) in
    write_line out2 []
  else
    let out2 :=
      foldl (λ o kvit, write_line o (kvit ++ [code "="] ++ value_text (values section !! kvit)))
            out1 (keysOrder section) in
    write_line out2 [].

Definition save (f : IniFile) : bool * list str :=
  (true, foldl save_section [] (sections f)).

(** ** Notions used by the statements *)

(** The invariant of a section: the keys in order are pairwise distinct and
    are exactly the keys of the value map. *)
Definition sec_inv (s : IniSection) : Prop :=
  NoDup (keysOrder s) ∧ dom (values s) = list_to_set (keysOrder s).

Definition file_inv (f : IniFile) : Prop := Forall sec_inv (sections f).

(** A line that [load] keeps verbatim because of its first character. *)
Definition raw_prefixed (line : str) : Prop :=
  ∃ c, head line = Some c ∧ c ∈ raw_prefixes.

(** The header line of a section, as [save] writes it. *)
Definition header_text (s : IniSection) : str := [code "["] ++ name s ++ [code "]"].

(** The line that [save] writes for a key of a section. *)
Definition pair_text (s : IniSection) (k : str) : str :=
  k ++ [code "="] ++ value_text (values s !! k).

(** *** The loop of [load], line by line *)

(** The first line of the input without a byte order mark. *)
Definition strip_BOM (line : str) : str :=
  if bool_decide (JS.substr line 0 3 = BOM) then JS.slice_from line 3 else line.

(** The lines as the loop body sees them after its first statement. *)
Definition source_lines (input : list str) : list str :=
  match input with
  | [] => []
  | line :: rest => strip_BOM line :: rest
  end.

(** What the loop body takes a line for: the header of a named section, a
    line that it skips (an opening bracket without a closing one), a line
    kept verbatim, or a key with a value. *)
Inductive LineKind :=
  | Header (n : str)
  | Ignored
  | Raw
  | Pair (key value : str).

Definition classify (line : str) : LineKind :=
  if bool_decide (head line = Some (code "[")) then
    if bool_decide (JS.indexOf line (code "]") ≠ -1)
    then Header (JS.substr line 1 (JS.indexOf line (code "]") - 1))
    else Ignored
  else
    match parseLine line with
    | None => Raw
    | Some (key, value) =>
        if negb (bool_decide (length line = 0%nat))
           && existsb (λ val, bool_decide (head line = Some val)) raw_prefixes
        then Raw else Pair key value
    end.

(** The effect of a classified line on the document and on the reference to
    the current section. *)
Definition load_line (fc : IniFile * option nat) (line : str) : IniFile * option nat :=
  let '(f, cur) := fc in
  match classify line, cur with
  | Header n, _ => let '(i, f') := getOrCreateSection n f in (f', Some i)
  | Raw, Some i => (mkIniFile (alter (sec_pushLine line) i (sections f)), Some i)
  | Pair key value, Some i => (mkIniFile (alter (sec_set key value) i (sections f)), Some i)
  | _, _ => (f, cur)
  end.

Global Arguments load_line : simpl never.
Global Arguments classify : simpl never.
Global Arguments parseLine : simpl never.

(** A section name is mentioned in the input when a line is its header. *)
Definition mentioned (n : str) (input : list str) : Prop :=
  ∃ line, line ∈ source_lines input ∧ classify line = Header n.

(** The value that the lines give a key of a section: the value of the last
    line that is a pair for this key under a header of this section.  [cur]
    is the name of the section whose header was read last. *)
Fixpoint assigned (cur : option str) (src : list str) (n k : str) : option str :=
  match src with
  | [] => None
  | line :: rest =>
      match classify line with
      | Header m => assigned (Some m) rest n k
      | Pair key value =>
          match assigned cur rest n k with
          | Some w => Some w
          | None => if bool_decide (cur = Some n ∧ key = k) then Some value else None
          end
      | _ => assigned cur rest n k
      end
  end.

(** The value of a key of the section of a given name, if any. *)
Definition value_of (f : IniFile) (n k : str) : option str :=
  getSection n f ≫= λ '(_, s), values s !! k.

(** The reference [cur] to the current section and the name [cn] of the
    header read last agree: the reference is the first section of that name. *)
Definition cur_ok (f : IniFile) (cur : option nat) (cn : option str) : Prop :=
  match cur, cn with
  | Some i, Some n => ∃ s, getSection n f = Some (i, s)
  | None, None => True
  | _, _ => False
  end.

(** A section and a later state of it in which nothing was removed. *)
Definition sec_extends (s s' : IniSection) : Prop :=
  name s' = name s ∧ keysOrder s `prefix_of` keysOrder s' ∧ lines s `prefix_of` lines s'.

(** The name of the header read last, after one more line. *)
Definition next_name (cn : option str) (line : str) : option str :=
  match classify line with
  | Header m => Some m
  | _ => cn
  end.

(** *** The file between [save] and [load] *)

(** The file and the line reader are the platform's, not code of this
    repository.  They are modelled on the text as code units.

    Writing a text encodes it as UTF-8 and reading decodes it: a surrogate
    code unit that is not part of a pair comes back as U+FFFD, every other
    code unit as it is.  Each [out.write] is encoded by itself. *)
Definition is_high_surrogate (c : N) : bool := ((55296 <=? c) && (c <=? 56319))%N.
Definition is_low_surrogate (c : N) : bool := ((56320 <=? c) && (c <=? 57343))%N.

Definition is_surrogate_free (c : N) : Prop :=
  is_high_surrogate c = false ∧ is_low_surrogate c = false.

Fixpoint through_utf8 (t : str) : str :=
  match t with
  | [] => []
  | c :: t' =>
      if is_high_surrogate c then
        match t' with
        | d :: t'' =>
            if is_low_surrogate d then c :: d :: through_utf8 t''
            else 65533%N :: through_utf8 t'
        | [] => [65533%N]
        end
      else if is_low_surrogate c then 65533%N :: through_utf8 t'
      else c :: through_utf8 t'
  end.

(** The content of the file after the writes [out]: every text written,
    followed by its newline. *)
Definition file_text (out : list str) : str :=
  out ≫= λ t, through_utf8 (t ++ [10%N]).

(** The line reader ends a line at LF, at CR LF, at a lone CR, and at the
    line and paragraph separators U+2028 and U+2029; text after the last
    line end is a last line if it is not empty.  [cur] is the line read so
    far. *)
Definition is_line_end (c : N) : bool :=
  ((c =? 10) || (c =? 13) || (c =? 8232) || (c =? 8233))%N.

Fixpoint read_lines_from (cur : str) (text : str) : list str :=
  match text with
  | [] => if bool_decide (cur = []) then [] else [cur]
  | c :: rest =>
      if (c =? 13)%N then
        match rest with
        | d :: rest' =>
            if (d =? 10)%N then cur :: read_lines_from [] rest'
            else cur :: read_lines_from [] rest
        | [] => [cur]
        end
      else if is_line_end c then cur :: read_lines_from [] rest
      else read_lines_from (cur ++ [c]) rest
  end.

Definition read_lines (text : str) : list str := read_lines_from [] text.

(** The lines that the reader yields from the file that the writes [out]
    leave. *)
Definition reopen (out : list str) : list str := read_lines (file_text out).

(** A text that the file gives back as one line: it has no line end in it
    and no surrogate code unit outside a pair. *)
Definition one_line (t : str) : Prop := Forall (λ c, ¬ is_line_end c) t.
Definition well_formed (t : str) : Prop := through_utf8 t = t.
Definition storable (t : str) : Prop := one_line t ∧ well_formed t.

(** A section whose name, keys, raw lines and values are such texts. *)
Definition storable_section (s : IniSection) : Prop :=
  storable (name s) ∧
  Forall storable (keysOrder s) ∧
  Forall storable (lines s) ∧
  ∀ k v, values s !! k = Some v → storable v.

(** *** Writing a document and reading it back *)

(** A section has only key/value content. *)
Definition kv_only (s : IniSection) : Prop := keysOrder s ≠ [] ∧ lines s = [].

(** Section names are pairwise distinct and every section satisfies its
    invariant, as in every document that the interface produces. *)
Definition file_wf (f : IniFile) : Prop :=
  NoDup (name <$> sections f) ∧ file_inv f.

(** Reading back the file that [save] wrote gives, for every section, the
    same keys in the same order and for every key the same value through
    [get]. *)
Definition roundtrip_at (f : IniFile) : Prop :=
  ∀ s, s ∈ sections f →
    let f' := (load (reopen (save f).2) true new_IniFile).2 in
    getKeys (name s) f' = keysOrder s ∧
    ∀ k, k ∈ keysOrder s → ∀ d,
      ∃ i s', getSection (name s) f' = Some (i, s') ∧
              (sec_get k d s').1 = (sec_get k d s).1.

(** Names, keys and values that the reader gives back as they are.  A name
    has no closing bracket.  A key has no white space and no [=], and does
    not start with an opening bracket, [#], [$], [+] or [*].  A value has no
    white space and no quote character. *)
Definition clean_name (n : str) : Prop := code "]" ∉ n.

Definition reserved_first : list N :=
  [code "["; code "#"; code "$"; code "+"; code "*"].

Definition clean_key (k : str) : Prop :=
  Forall (λ c, ¬ JS.is_space c ∧ c ≠ code "=") k ∧
  ∀ c, head k = Some c → c ∉ reserved_first.

Definition clean_value (v : str) : Prop :=
  Forall (λ c, ¬ JS.is_space c ∧ ¬ JS.is_quote c) v.

Definition clean_section (s : IniSection) : Prop :=
  clean_name (name s) ∧
  Forall clean_key (keysOrder s) ∧
  ∀ k v, values s !! k = Some v → clean_value v.

(** A section as it is read back: the empty line that ends its text is its
    only raw line. *)
Definition reloaded (s : IniSection) : IniSection :=
  mkSection (name s) (keysOrder s) [[]] (values s).

(** *** The mutation interface *)

(** A call of a mutating method on a [Section] object. *)
Inductive SectionCall :=
  | CallSet (key value : str)
  | CallDelete (key : str)
  | CallSetLines (ls : list str).

Definition run_call (c : SectionCall) (s : IniSection) : IniSection :=
  match c with
  | CallSet key value => sec_set key value s
  | CallDelete key => (sec_delete key s).2
  | CallSetLines ls => sec_setLines ls s
  end.

(** The documents that the interface can produce: from the empty document,
    by the methods of [IniFile] and by calls of the mutating methods of
    [Section] on a section object that the document holds. *)
Inductive reachable : IniFile → Prop :=
  | reach_new : reachable new_IniFile
  | reach_getOrCreateSection n f :
      reachable f → reachable (getOrCreateSection n f).2
  | reach_deleteSection n f :
      reachable f → reachable (deleteSection n f).2
  | reach_setLines n ls f :
      reachable f → reachable (setLines n ls f)
  | reach_deleteKey n k f :
      reachable f → reachable (deleteKey n k f).2
  | reach_load input keep f :
      reachable f → reachable (load input keep f).2
  | reach_call i c f :
      reachable f → reachable (mkIniFile (alter (run_call c) i (sections f))).

(** The section objects that the interface can produce: a new section, a
    section after a call of one of its mutating methods, and a section held
    by a document that the interface produces. *)
Inductive sec_reachable : IniSection → Prop :=
  | sr_new n : sec_reachable (new_Section n)
  | sr_call c s : sec_reachable s → sec_reachable (run_call c s)
  | sr_held f s : reachable f → s ∈ sections f → sec_reachable s.

(** *** The loop of [load], section by section *)

(** What the lines do to the section of one name [n], told without the rest
    of the document.  [o] is that section, if the document has it; [cn] is
    the name of the header read last.  A header of [n] creates the section
    when it is missing; a raw line or a pair under a header of [n] is pushed
    or set. *)
Fixpoint section_view (cn : option str) (src : list str) (n : str)
    (o : option IniSection) : option IniSection :=
  match src with
  | [] => o
  | line :: rest =>
      match classify line with
      | Header m =>
          section_view (Some m) rest n
            (if decide (m = n) then Some (default (new_Section n) o) else o)
      | Ignored => section_view cn rest n o
      | Raw =>
          section_view cn rest n
            (if decide (cn = Some n) then sec_pushLine line <$> o else o)
      | Pair key value =>
          section_view cn rest n
            (if decide (cn = Some n) then sec_set key value <$> o else o)
      end
  end.

(** The section of a given name, without its position. *)
Definition section_of (n : str) (f : IniFile) : option IniSection :=
  snd <$> getSection n f.

(** The names of the headers among the lines, in order. *)
Definition header_names (src : list str) : list str :=
  omap (λ line, match classify line with Header n => Some n | _ => None end) src.

(** A name put last unless it is there already. *)
Definition add_name (names : list str) (n : str) : list str :=
  if decide (n ∈ names) then names else names ++ [n].

(** The raw lines that the lines give the section of name [n]: the lines kept
    verbatim under a header of [n], in order. *)
Fixpoint raw_lines_for (cn : option str) (src : list str) (n : str) : list str :=
  match src with
  | [] => []
  | line :: rest =>
      match classify line with
      | Header m => raw_lines_for (Some m) rest n
      | Raw => (if decide (cn = Some n) then [line] else []) ++ raw_lines_for cn rest n
      | _ => raw_lines_for cn rest n
      end
  end.

(** The keys that the lines set in the section of name [n]: the keys of the
    pairs under a header of [n], in order, with repetitions. *)
Fixpoint pair_keys_for (cn : option str) (src : list str) (n : str) : list str :=
  match src with
  | [] => []
  | line :: rest =>
      match classify line with
      | Header m => pair_keys_for (Some m) rest n
      | Pair key _ => (if decide (cn = Some n) then [key] else []) ++ pair_keys_for cn rest n
      | _ => pair_keys_for cn rest n
      end
  end.

(** *** Documents with raw sections *)

(** A line that is read back as a raw line: the empty line, and a line whose
    first character is [#], [$], [+] or [*]. *)
Definition raw_text (line : str) : Prop :=
  line = [] ∨ ∃ c, head line = Some c ∧ c ∈ code "#" :: raw_prefixes.

(** A section that the reader gives back: its name has no closing bracket;
    if it has no keys its raw lines are read back as raw lines, and otherwise
    its keys and values are read back as they are. *)
Definition readable (s : IniSection) : Prop :=
  clean_name (name s) ∧
  if decide (keysOrder s = []) then Forall raw_text (lines s)
  else Forall clean_key (keysOrder s) ∧ ∀ k v, values s !! k = Some v → clean_value v.

(** A section as it is read back from the output of [save]: a section
    without keys has its raw lines and the empty line that ends its text; a
    section with keys has only that empty line. *)
Definition reread (s : IniSection) : IniSection :=
  mkSection (name s) (keysOrder s)
            (if decide (keysOrder s = []) then lines s ++ [[]] else [[]])
            (values s).

(** ** The raw lines as arrays that can be shared *)

(** [Section.setLines] keeps the array that it is given ([this.lines =
    lines]) and [load] pushes into the array of the current section in place
    ([current_section.lines.push(line)]), so two sections that were given
    one array change together.  The records above hold the raw lines by
    value and cannot tell this.  In the embedding below the [lines] field of
    a section is a reference into a store of arrays, which also holds the
    arrays of the callers; the other fields are as above.  The key order is
    held by value in both: its array is made by the constructor and never
    replaced. *)
Record ShSection := mkShSection {
  sh_name : str;
  sh_keysOrder : list str;
  sh_lines : nat;
  sh_values : gmap str str
}.

Record ShFile := mkShFile {
  sh_sections : list ShSection;
  sh_arrays : list (list str)
}.

(** [new Section(name)]: the constructor makes a new empty array. *)
Definition sh_new_Section (n : str) (arrays : list (list str))
    : ShSection * list (list str) :=
  (mkShSection n [] (length arrays) ∅, arrays ++ [[]]).

Definition sh_sec_set (key new_value : str) (s : ShSection) : ShSection :=
  let newKey := negb (bool_decide (is_Some (sh_values s !! key))) in
  let keysOrder' := if newKey then sh_keysOrder s ++ [key] else sh_keysOrder s in
  mkShSection (sh_name s) keysOrder' (sh_lines s) (<[key := new_value]> (sh_values s)).

(** [this.lines = lines]: the section refers to the array given. *)
Definition sh_sec_setLines (a : nat) (s : ShSection) : ShSection :=
  mkShSection (sh_name s) (sh_keysOrder s) a (sh_values s).

(** [a.push(line)] on the array behind a reference. *)
Definition sh_push (a : nat) (line : str) (arrays : list (list str)) : list (list str) :=
  alter (λ arr, arr ++ [line]) a arrays.

Definition sh_getSection (sectionName : str) (f : ShFile) : option (nat * ShSection) :=
  list_find (λ s, sh_name s = sectionName) (sh_sections f).

Definition sh_getOrCreateSection (section_name : str) (f : ShFile) : nat * ShFile :=
  match sh_getSection section_name f with
  | Some (i, _) => (i, f)
  | None =>
      let '(s, arrays') := sh_new_Section section_name (sh_arrays f) in
      (length (sh_sections f), mkShFile (sh_sections f ++ [s]) arrays')
  end.

Definition sh_setLines (section_name : str) (a : nat) (f : ShFile) : ShFile :=
  let '(i, f') := sh_getOrCreateSection section_name f in
  mkShFile (alter (sh_sec_setLines a) i (sh_sections f')) (sh_arrays f').

(** A caller makes an array; the result is its reference. *)
Definition sh_alloc (arr : list str) (f : ShFile) : nat * ShFile :=
  (length (sh_arrays f), mkShFile (sh_sections f) (sh_arrays f ++ [arr])).

Record ShLoadState := mkShLoadState {
  sl_file : ShFile;
  sl_current : option nat;
  sl_first : bool
}.

(** One iteration of the loop of [load]. *)
Definition sh_load_step (st : ShLoadState) (line0 : str) : ShLoadState :=
  let line :=
    if sl_first st && bool_decide (JS.substr line0 0 3 = BOM)
    then JS.slice_from line0 3 else line0 in
  if bool_decide (head line = Some (code "[")) then
    let endpos := JS.indexOf line (code "]") in
    if bool_decide (endpos ≠ -1) then
      let sub := JS.substr line 1 (endpos - 1) in
      let '(i, f') := sh_getOrCreateSection sub (sl_file st) in
      mkShLoadState f' (Some i) false
    else mkShLoadState (sl_file st) (sl_current st) false
  else
    match sl_current st with
    | Some i =>
        let kv := parseLine line in
        let raw :=
          bool_decide (kv = None)
          || (negb (bool_decide (length line = 0%nat))
              && existsb (λ val, bool_decide (head line = Some val)) raw_prefixes) in
        if raw then
          match sh_sections (sl_file st) !! i with
          | Some s =>
              mkShLoadState
                (mkShFile (sh_sections (sl_file st))
                          (sh_push (sh_lines s) line (sh_arrays (sl_file st))))
                (Some i) false
          | None => mkShLoadState (sl_file st) (Some i) false
          end
        else
          match kv with
          | Some (key, value) =>
              mkShLoadState
                (mkShFile (alter (sh_sec_set key value) i (sh_sections (sl_file st)))
                          (sh_arrays (sl_file st)))
                (Some i) false
          | None => mkShLoadState (sl_file st) (Some i) false
          end
    | None => mkShLoadState (sl_file st) None false
    end.

(** [this.sections = []] leaves the arrays where they are. *)
Definition sh_load_init (keep_current_data : bool) (f : ShFile) : ShLoadState :=
  mkShLoadState (if keep_current_data then f else mkShFile [] (sh_arrays f)) None true.

Definition sh_load (input : list str) (keep_current_data : bool) (f : ShFile)
    : bool * ShFile :=
  (true, sl_file (foldl sh_load_step (sh_load_init keep_current_data f) input)).

(** The loop body by the kind of the line, as [load_line] above. *)
Definition sh_load_line (fc : ShFile * option nat) (line : str) : ShFile * option nat :=
  let '(f, cur) := fc in
  match classify line, cur with
  | Header n, _ => let '(i, f') := sh_getOrCreateSection n f in (f', Some i)
  | Raw, Some i =>
      match sh_sections f !! i with
      | Some s => (mkShFile (sh_sections f) (sh_push (sh_lines s) line (sh_arrays f)), Some i)
      | None => (f, Some i)
      end
  | Pair key value, Some i =>
      (mkShFile (alter (sh_sec_set key value) i (sh_sections f)) (sh_arrays f), Some i)
  | _, _ => (f, cur)
  end.

Global Arguments sh_load_line : simpl never.

(** The raw lines of a section: the content of the array it refers to. *)
Definition sh_raw_lines (f : ShFile) (s : ShSection) : list str :=
  default [] (sh_arrays f !! sh_lines s).

Definition sh_value_of (f : ShFile) (n k : str) : option str :=
  sh_getSection n f ≫= λ '(_, s), sh_values s !! k.

(** The document by value: every section with the content of its array. *)
Definition snapshot_section (arrays : list (list str)) (s : ShSection) : IniSection :=
  mkSection (sh_name s) (sh_keysOrder s) (default [] (arrays !! sh_lines s)) (sh_values s).

Definition snapshot (f : ShFile) : IniFile :=
  mkIniFile (snapshot_section (sh_arrays f) <$> sh_sections f).

(** A section by value without its raw lines, and a document so. *)
Definition strip_section (s : IniSection) : IniSection :=
  mkSection (name s) (keysOrder s) [] (values s).

Definition strip (f : IniFile) : IniFile := mkIniFile (strip_section <$> sections f).

(** A section of the store by value without its raw lines. *)
Definition bare (s : ShSection) : IniSection :=
  mkSection (sh_name s) (sh_keysOrder s) [] (sh_values s).

(** The two embeddings agree on the names, keys and values of a document. *)
Definition same_keys (f : ShFile) (g : IniFile) : Prop :=
  bare <$> sh_sections f = strip_section <$> sections g.

(** A section and a later state of it: the same name, the same array, and
    no key removed. *)
Definition sh_extends (s s' : ShSection) : Prop :=
  sh_name s' = sh_name s ∧ sh_lines s' = sh_lines s ∧
  sh_keysOrder s `prefix_of` sh_keysOrder s'.

(** Every section refers to an array of the store; no two sections refer to
    one array. *)
Definition sh_valid (f : ShFile) : Prop :=
  Forall (λ s, (sh_lines s < length (sh_arrays f))%nat) (sh_sections f).

Definition unshared (f : ShFile) : Prop := NoDup (sh_lines <$> sh_sections f).

(** [load] with [keepCurrentData] true leaves every section that the input
    does not mention as it is: the section object and the content of its
    array of raw lines. *)
Definition sh_frame_at (input : list str) (f : ShFile) : Prop :=
  ∀ j s, sh_sections f !! j = Some s → ¬ mentioned (sh_name s) input →
    sh_sections (sh_load input true f).2 !! j = Some s ∧
    sh_raw_lines (sh_load input true f).2 s = sh_raw_lines f s.

(** While the lines are read: the section whose header was read last has a
    name in [M], and no section with a name in [M] refers to the array [a],
    which is in the store. *)
Definition array_apart (M : str → Prop) (a : nat) (f : ShFile) (cur : option nat) : Prop :=
  (a < length (sh_arrays f))%nat ∧
  (∀ i s, cur = Some i → sh_sections f !! i = Some s → M (sh_name s)) ∧
  (∀ j s, sh_sections f !! j = Some s → M (sh_name s) → sh_lines s ≠ a).

(** The section whose header was read last has a name in [M]. *)
Definition cur_in (M : str → Prop) (f : ShFile) (cur : option nat) : Prop :=
  ∀ i s, cur = Some i → sh_sections f !! i = Some s → M (sh_name s).

(** ** Concrete documents *)

(** A section [Core] with the key [CPUThread], built through [set]. *)
Definition ex_core : IniSection :=
  sec_set (lit "CPUThread") (lit "True") (new_Section (lit "Core")).

(** A section with a key whose stored value is the empty string. *)
Definition ex_blank : IniSection :=
  sec_set (lit "Path") [] (new_Section (lit "General")).

(** The loop state after the header line of a section [Gecko] was read into
    an empty document, and three lines with the reserved first characters. *)
Definition ex_gecko_state : LoadState :=
  foldl load_step (load_init true new_IniFile) [lit "[Gecko]"].

Definition ex_raw_lines : list str := [lit "$Code=1"; lit "*x"; lit "+ y = 2"].

(** The five lines of the scenario, and the document read from them. *)
Definition ex_scenario : list str :=
  [lit "[Core]"; lit "# comment"; lit "CPUThread = True"; lit "[Gecko_Enabled]";
   lit "$SomeCode"].

Definition ex_loaded : IniFile := (load ex_scenario true new_IniFile).2.

(** An update for the document of the scenario that names [Core] only, and
    the section [Gecko_Enabled] as the scenario leaves it. *)
Definition ex_update : list str := [lit "[Core]"; lit "CPUThread=False"].

Definition ex_gecko : IniSection :=
  mkSection (lit "Gecko_Enabled") [] [lit "$SomeCode"] ∅.

(** A document with one key whose value, a path, contains a space. *)
Definition cx_file : IniFile :=
  mkIniFile (alter (run_call (CallSet (lit "ISOPath0") (lit "C:/My Games")))
                   0%nat (sections (getOrCreateSection (lit "General") new_IniFile).2)).

(** A document of two sections whose names, keys and values the reader
    gives back as they are. *)
Definition ex_clean : IniFile :=
  mkIniFile [sec_set (lit "GFXBackend") (lit "OGL") ex_core;
             sec_set (lit "Volume") (lit "100") (new_Section (lit "DSP"))].

(** A document with a section of keys and a section of raw lines only. *)
Definition ex_readable : IniFile :=
  mkIniFile [ex_core;
             sec_setLines [lit "$Code A"; lit "*a note"; lit "# note"]
                          (new_Section (lit "Gecko"))].

(** Two sections [A] and [B] that were given one array of raw lines by two
    calls of [setLines], and an input that names [A] only. *)
Definition cx_shared : ShFile :=
  let '(a, f) := sh_alloc [lit "$old"] (mkShFile [] []) in
  sh_setLines (lit "B") a (sh_setLines (lit "A") a f).

Definition cx_shared_input : list str := [lit "[A]"; lit "$new"].

(** The same two sections, each given an array of its own. *)
Definition ex_unshared : ShFile :=
  let '(a, f) := sh_alloc [lit "$old"] (mkShFile [] []) in
  let '(b, f') := sh_alloc [lit "$old"] (sh_setLines (lit "A") a f) in
  sh_setLines (lit "B") b f'.

(** ** String primitives *)

Lemma indexOf_from_absent c s i : c ∉ s → JS.indexOf_from c s i = -1.
Proof.
  revert i. induction s as [|x s IH]; intros i Hc; [done|]. simpl.
  apply not_elem_of_cons in Hc as [Hx Hs].
  destruct (N.eqb_spec x c); [congruence|]. by apply IH.
Qed.

Lemma indexOf_from_split c pre post i :
  c ∉ pre → JS.indexOf_from c (pre ++ c :: post) i = i + Z.of_nat (length pre).
Proof.
  revert i. induction pre as [|x pre IH]; intros i Hc; simpl.
  - rewrite N.eqb_refl. lia.
  - apply not_elem_of_cons in Hc as [Hx Hs].
    destruct (N.eqb_spec x c); [congruence|]. rewrite IH by done. lia.
Qed.

Lemma indexOf_absent s c : c ∉ s → JS.indexOf s c = -1.
Proof. apply indexOf_from_absent. Qed.

Lemma indexOf_split pre post c :
  c ∉ pre → JS.indexOf (pre ++ c :: post) c = Z.of_nat (length pre).
Proof. intros. unfold JS.indexOf. rewrite indexOf_from_split by done. lia. Qed.

Lemma indexOf_from_present c s i : c ∈ s → i ≤ JS.indexOf_from c s i.
Proof.
  revert i. induction s as [|x s IH]; intros i Hc; [by apply elem_of_nil in Hc|]. simpl.
  destruct (N.eqb_spec x c); [lia|].
  apply elem_of_cons in Hc as [->|Hc]; [done|]. specialize (IH (i + 1) Hc). lia.
Qed.

Lemma indexOf_present s c : c ∈ s → JS.indexOf s c ≠ -1.
Proof. intros Hc. pose proof (indexOf_from_present c s 0 Hc). unfold JS.indexOf. lia. Qed.

Lemma substring_prefix pre post :
  JS.substring (pre ++ post) 0 (Z.of_nat (length pre)) = pre.
Proof.
  unfold JS.substring, JS.clamp. rewrite length_app.
  replace (Z.to_nat (Z.min (Z.max 0 0) _)) with 0%nat by lia.
  replace (Z.to_nat (Z.min (Z.max (Z.of_nat (length pre)) 0) _)) with (length pre) by lia.
  rewrite Nat.max_0_l, Nat.min_0_l, Nat.sub_0_r, drop_0.
  by rewrite take_app_length.
Qed.

Lemma substring_from_suffix pre c post :
  JS.substring_from (pre ++ c :: post) (Z.of_nat (length pre) + 1) = post.
Proof.
  unfold JS.substring_from, JS.clamp. rewrite length_app. simpl.
  replace (Z.to_nat _) with (length (pre ++ [c])) by (rewrite length_app; simpl; lia).
  replace (pre ++ c :: post) with ((pre ++ [c]) ++ post) by (by rewrite <- app_assoc).
  by rewrite drop_app_length.
Qed.

Lemma substr_inner c pre rest :
  JS.substr (c :: pre ++ rest) 1 (Z.of_nat (length pre)) = pre.
Proof.
  unfold JS.substr, JS.start_pos. simpl.
  replace (Z.to_nat (Z.min 1 _)) with 1%nat by lia.
  replace (Z.to_nat (Z.max _ 0)) with (length pre) by lia.
  change (drop 1 (c :: pre ++ rest)) with (pre ++ rest). by rewrite take_app_length.
Qed.

Lemma replace_runs_empty C b s :
  JS.replace_runs C [] b s = filter (λ c, ¬ C c) s.
Proof.
  revert b. induction s as [|c s IH]; intros b; [done|]. simpl.
  destruct (C c) eqn:HC.
  - rewrite filter_cons_False by (rewrite HC; intros H; by apply H).
    rewrite IH. by destruct b.
  - rewrite filter_cons_True by (rewrite HC; intros H; exact H). by rewrite IH.
Qed.

Lemma filter_all {A} (P : A → Prop) `{∀ x, Decision (P x)} (l : list A) :
  Forall P l → filter P l = l.
Proof.
  induction 1 as [|x l Hx _ IH]; [done|]. by rewrite filter_cons_True, IH.
Qed.

Lemma replace_all_empty C s : JS.replace_all C [] s = filter (λ c, ¬ C c) s.
Proof. apply replace_runs_empty. Qed.


(** ** The line classifier *)

Lemma parseLine_None line :
  parseLine line = None ↔ line = [] ∨ head line = Some (code "#").
Proof.
  unfold parseLine. split.
  - destruct (bool_decide (line = [])) eqn:He; simpl.
    { apply bool_decide_eq_true in He. by left. }
    destruct (bool_decide (head line = Some (code "#"))) eqn:Hh; simpl.
    { apply bool_decide_eq_true in Hh. by right. }
    destruct (bool_decide (JS.indexOf _ _ ≠ _)); intros; discriminate.
  - intros [->|Hh]; [done|].
    rewrite (bool_decide_eq_true_2 _ Hh). by rewrite orb_true_r.
Qed.

Lemma parseLine_pair pre post :
  code "=" ∉ pre → head (pre ++ code "=" :: post) ≠ Some (code "#") →
  parseLine (pre ++ code "=" :: post)
  = Some (filter (λ c, ¬ JS.is_space c) pre,
          filter (λ c, ¬ JS.is_quote c) (filter (λ c, ¬ JS.is_space c) post)).
Proof.
  intros Hpre Hh. unfold parseLine.
  rewrite bool_decide_eq_false_2 by (by destruct pre).
  rewrite (bool_decide_eq_false_2 _ Hh). simpl.
  rewrite indexOf_split by done.
  rewrite bool_decide_eq_true_2 by lia.
  rewrite substring_prefix, substring_from_suffix.
  by rewrite !replace_all_empty.
Qed.

Lemma parseLine_no_equals line :
  code "=" ∉ line → line ≠ [] → head line ≠ Some (code "#") →
  parseLine line = Some ([], []).
Proof.
  intros Hc Hne Hh. unfold parseLine.
  rewrite (bool_decide_eq_false_2 _ Hne), (bool_decide_eq_false_2 _ Hh). simpl.
  rewrite indexOf_absent by done. by rewrite bool_decide_eq_false_2 by lia.
Qed.

(** C3.  [parseLine] gives no pair exactly for the empty line and for a line
    whose first character is [#].  For any other line that contains [=]: the
    key is the text before the first [=] without its white space, and the
    value is the text after the first [=] without its white space and without
    its quote characters.  For any other line without [=] it gives the pair
    of two empty strings, not the absent result. *)
Theorem parseLine_spec (line : str) :
  (parseLine line = None ↔ line = [] ∨ head line = Some (code "#")) ∧
  (∀ pre post,
     line = pre ++ code "=" :: post → code "=" ∉ pre →
     head line ≠ Some (code "#") →
     parseLine line
     = Some (filter (λ c, ¬ JS.is_space c) pre,
             filter (λ c, ¬ JS.is_space c ∧ ¬ JS.is_quote c) post)) ∧
  (code "=" ∉ line → line ≠ [] → head line ≠ Some (code "#") →
   parseLine line = Some ([], [])).
Proof.
  split_and!.
  - apply parseLine_None.
  - intros pre post -> Hpre Hh. rewrite parseLine_pair by done.
    do 2 f_equal. rewrite list_filter_filter. apply list_filter_iff. intros c. tauto.
  - apply parseLine_no_equals.
Qed.

Lemma parseLine_spec_witness :
  parseLine (lit " a b = 'c d' = e")
  = Some (filter (λ c, ¬ JS.is_space c) (lit " a b "),
          filter (λ c, ¬ JS.is_space c ∧ ¬ JS.is_quote c) (lit " 'c d' = e")).
Proof.
  apply (proj1 (proj2 (parseLine_spec (lit " a b = 'c d' = e"))) (lit " a b ") (lit " 'c d' = e")).
  - reflexivity.
  - apply (bool_decide_unpack _). by vm_compute.
  - apply (bool_decide_unpack _). by vm_compute.
Defined.

(** ** The section invariant and the methods of [Section] *)

Lemma sec_inv_alt (s : IniSection) :
  sec_inv s ↔ NoDup (keysOrder s) ∧ ∀ k, k ∈ keysOrder s ↔ is_Some (values s !! k).
Proof.
  unfold sec_inv. split; intros [Hnd Hd]; (split; [done|]).
  - intros k. by rewrite <- elem_of_dom, Hd, elem_of_list_to_set.
  - apply set_eq. intros k. by rewrite elem_of_dom, elem_of_list_to_set, Hd.
Qed.

Lemma sec_inv_elem s k : sec_inv s → k ∈ keysOrder s ↔ is_Some (values s !! k).
Proof. intros Hs. by apply sec_inv_alt. Qed.

Lemma new_Section_inv n : sec_inv (new_Section n).
Proof.
  apply sec_inv_alt. simpl. split; [constructor|]. intros k.
  rewrite lookup_empty, elem_of_nil. split; [done|]. by intros [? ?].
Qed.

(** What [set] does, by the test that the code makes. *)
Lemma sec_set_has key v s :
  is_Some (values s !! key) →
  sec_set key v s = mkSection (name s) (keysOrder s) (lines s) (<[key := v]> (values s)).
Proof. intros H. unfold sec_set. by rewrite (bool_decide_eq_true_2 _ H). Qed.

Lemma sec_set_new key v s :
  values s !! key = None →
  sec_set key v s
  = mkSection (name s) (keysOrder s ++ [key]) (lines s) (<[key := v]> (values s)).
Proof.
  intros H. unfold sec_set. rewrite bool_decide_eq_false_2; [done|].
  rewrite H. by intros [? ?].
Qed.

Lemma sec_set_name key v s : name (sec_set key v s) = name s.
Proof. done. Qed.

Lemma sec_set_lines key v s : lines (sec_set key v s) = lines s.
Proof. done. Qed.

Lemma sec_set_values key v s : values (sec_set key v s) = <[key := v]> (values s).
Proof. done. Qed.

Lemma sec_set_inv key v s : sec_inv s → sec_inv (sec_set key v s).
Proof.
  intros Hs. pose proof (sec_inv_elem s key Hs) as Hk.
  apply sec_inv_alt in Hs as [Hnd Hd]. apply sec_inv_alt.
  destruct (values s !! key) as [w|] eqn:Hv.
  - rewrite sec_set_has by (by rewrite Hv). simpl. split; [done|].
    intros k. rewrite Hd. destruct (decide (key = k)) as [->|Hne].
    + rewrite lookup_insert_eq, Hv. split; eauto.
    + by rewrite lookup_insert_ne.
  - rewrite sec_set_new by done. simpl. split.
    + apply NoDup_app. split_and!; [done| |apply NoDup_singleton].
      intros k Hin ->%list_elem_of_singleton. apply Hk in Hin. by destruct Hin.
    + intros k. rewrite elem_of_app, list_elem_of_singleton, Hd.
      destruct (decide (key = k)) as [->|Hne].
      * rewrite lookup_insert_eq. split; eauto.
      * rewrite lookup_insert_ne by done. split; [intros [?|?]; [done|congruence]|by left].
Qed.

(** The element that [delete] splices out of the key order. *)
Lemma array_indexOf_from_split x l1 l2 i :
  x ∉ l1 → JS.array_indexOf_from x (l1 ++ x :: l2) i = i + Z.of_nat (length l1).
Proof.
  revert i. induction l1 as [|y l1 IH]; intros i Hx; simpl.
  - rewrite bool_decide_eq_true_2 by done. lia.
  - apply not_elem_of_cons in Hx as [Hy Hl].
    rewrite bool_decide_eq_false_2 by congruence. rewrite IH by done. lia.
Qed.

Lemma splice1_indexOf (l : list str) x :
  NoDup l → x ∈ l → JS.splice1 l (JS.array_indexOf l x) = filter (λ y, y ≠ x) l.
Proof.
  intros Hnd Hx. apply list_elem_of_split_l in Hx as (l1 & l2 & -> & Hl1).
  unfold JS.array_indexOf, JS.splice1. rewrite array_indexOf_from_split by done.
  apply NoDup_app in Hnd as (_ & Hdisj & Hnd2). apply NoDup_cons in Hnd2 as [Hl2 _].
  destruct (Z.ltb_spec (0 + Z.of_nat (length l1)) 0) as [|_]; [lia|].
  rewrite length_app. simpl.
  replace (Z.to_nat _) with (length l1) by lia.
  rewrite delete_middle, filter_app, filter_cons_False by (intros H; by apply H).
  f_equal; symmetry; apply filter_all, Forall_forall; congruence.
Qed.

Lemma sec_delete_absent key s : values s !! key = None → sec_delete key s = (false, s).
Proof.
  intros H. unfold sec_delete. rewrite bool_decide_eq_false_2; [done|].
  rewrite H. by intros [? ?].
Qed.

Lemma sec_delete_present key s :
  sec_inv s → is_Some (values s !! key) →
  sec_delete key s
  = (true, mkSection (name s) (filter (λ k, k ≠ key) (keysOrder s)) (lines s)
                     (delete key (values s))).
Proof.
  intros Hs Hk. unfold sec_delete. rewrite (bool_decide_eq_true_2 _ Hk).
  rewrite splice1_indexOf; [done|apply Hs|by apply sec_inv_elem].
Qed.

Lemma sec_delete_inv key s : sec_inv s → sec_inv (sec_delete key s).2.
Proof.
  intros Hs. destruct (values s !! key) as [w|] eqn:Hv.
  - rewrite sec_delete_present by (by rewrite ?Hv). simpl.
    apply sec_inv_alt in Hs as [Hnd Hd]. apply sec_inv_alt. simpl. split.
    + by apply NoDup_filter.
    + intros k. rewrite list_elem_of_filter, Hd.
      destruct (decide (key = k)) as [->|Hne].
      * rewrite lookup_delete_eq. split; [by intros [? _]|by intros [? ?]].
      * rewrite lookup_delete_ne by done. split; [by intros [_ ?]|by split].
  - by rewrite sec_delete_absent.
Qed.

Lemma sec_setLines_inv ls s : sec_inv s → sec_inv (sec_setLines ls s).
Proof. done. Qed.

Lemma sec_pushLine_inv line s : sec_inv s → sec_inv (sec_pushLine line s).
Proof. done. Qed.

Lemma ex_core_inv : sec_inv ex_core.
Proof. apply sec_set_inv, new_Section_inv. Qed.





(** C10.  [get] returns the stored value of a key that is present in the
    value map, also when that value is the empty string; it returns the
    default for every choice of the default exactly when the key is absent
    from the value map; and it leaves the section as it is. *)
Theorem sec_get_spec (s : IniSection) (key : str) :
  (values s !! key = Some [] → ∀ d, (sec_get key d s).1 = []) ∧
  (∀ v, values s !! key = Some v → ∀ d, (sec_get key d s).1 = v) ∧
  ((∀ d, (sec_get key d s).1 = d) ↔ values s !! key = None) ∧
  (∀ d, (sec_get key d s).2 = s).
Proof.
  unfold sec_get. split_and!.
  - by intros ->.
  - by intros v ->.
  - destruct (values s !! key) as [v|] eqn:Hv; simpl; [|done].
    split; [|done]. intros H. specialize (H (0%N :: v)).
    apply (f_equal length) in H. simpl in H. lia.
  - intros d. by destruct (values s !! key).
Qed.

Lemma sec_get_spec_witness :
  (sec_get (lit "Path") (lit "C:/") ex_blank).1 = [] ∧
  (sec_get (lit "Other") (lit "C:/") ex_blank).1 = lit "C:/".
Proof.
  split.
  - apply (proj1 (sec_get_spec ex_blank (lit "Path"))). by vm_compute.
  - apply (proj1 (proj2 (proj2 (sec_get_spec ex_blank (lit "Other"))))). by vm_compute.
Defined.

(** ** save *)

Lemma foldl_write_line out ls : foldl write_line out ls = out ++ ls.
Proof.
  revert out. induction ls as [|l ls IH]; intros out; simpl.
  - by rewrite app_nil_r.
  - rewrite IH. unfold write_line. by rewrite <- app_assoc.
Qed.

Lemma foldl_write_map {A} (g : A → str) out (ks : list A) :
  foldl (λ o k, write_line o (g k)) out ks = out ++ (g <$> ks).
Proof.
  revert out. induction ks as [|k ks IH]; intros out; simpl.
  - by rewrite app_nil_r.
  - rewrite IH. unfold write_line. by rewrite <- app_assoc.
Qed.

(** The lines of one section in the output. *)
Lemma save_section_eq out s :
  save_section out s
  = out ++ header_text s
           :: (if decide (keysOrder s = []) then lines s else pair_text s <$> keysOrder s)
           ++ [[]].
Proof.
  unfold save_section, write_line, header_text.
  destruct (keysOrder s) as [|k ks] eqn:Hk.
  - rewrite bool_decide_eq_true_2 by done. rewrite decide_True by done.
    rewrite foldl_write_line. by rewrite <- !app_assoc.
  - rewrite bool_decide_eq_false_2 by done. rewrite decide_False by done.
    rewrite (foldl_write_map (pair_text s)). by rewrite <- !app_assoc.
Qed.

Lemma foldl_save_section out secs :
  foldl save_section out secs = out ++ (secs ≫= save_section []).
Proof.
  revert out. induction secs as [|s secs IH]; intros out; simpl.
  - by rewrite app_nil_r.
  - rewrite IH, (save_section_eq out), (save_section_eq [] s).
    rewrite <- (app_assoc out). reflexivity.
Qed.

Lemma save_eq f : save f = (true, sections f ≫= save_section []).
Proof. unfold save. by rewrite foldl_save_section. Qed.

(** C2.  [save] writes the sections in order, and for each section the header
    line, then the raw lines when the key order is empty and otherwise one
    line key=value per key in key order with the stored value, then one empty
    line.  So the output for a section with keys does not depend on its raw
    lines, and a section without keys and without raw lines gives its header
    line and an empty line. *)
Theorem save_spec (f : IniFile) :
  (save f).2
  = sections f ≫= (λ s,
      header_text s
      :: (if decide (keysOrder s = []) then lines s else pair_text s <$> keysOrder s)
      ++ [[]]) ∧
  (∀ s k v, values s !! k = Some v → pair_text s k = k ++ [code "="] ++ v) ∧
  (∀ out s, keysOrder s = [] →
     save_section out s = out ++ [header_text s] ++ lines s ++ [[]]) ∧
  (∀ out s, keysOrder s ≠ [] →
     save_section out s = out ++ [header_text s] ++ (pair_text s <$> keysOrder s) ++ [[]]) ∧
  (∀ out s ls, keysOrder s ≠ [] →
     save_section out (sec_setLines ls s) = save_section out s) ∧
  (∀ out s, keysOrder s = [] → lines s = [] →
     save_section out s = out ++ [header_text s; []]).
Proof.
  split_and!.
  - rewrite save_eq. simpl. induction (sections f) as [|s secs IH]; [done|].
    by rewrite !bind_cons, IH, (save_section_eq []).
  - intros s k v Hv. unfold pair_text. by rewrite Hv.
  - intros out s Hk. rewrite save_section_eq. by rewrite decide_True.
  - intros out s Hk. rewrite save_section_eq. by rewrite decide_False.
  - intros out s ls Hk. rewrite !save_section_eq. simpl. by rewrite !decide_False.
  - intros out s Hk Hl. rewrite save_section_eq. rewrite decide_True by done. by rewrite Hl.
Qed.

Lemma save_spec_witness :
  save_section [] (sec_setLines [lit "# comment"] ex_core)
  = [lit "[Core]"; lit "CPUThread=True"; []] ∧
  save_section [] (new_Section (lit "Gecko")) = [lit "[Gecko]"; []].
Proof.
  split.
  - rewrite (proj1 (proj2 (proj2 (proj2 (proj2 (save_spec new_IniFile))))) [] ex_core).
    + by vm_compute.
    + by vm_compute.
  - apply (proj2 (proj2 (proj2 (proj2 (proj2 (save_spec new_IniFile))))) [] (new_Section (lit "Gecko")));
      reflexivity.
Defined.

(** ** load *)

Lemma raw_prefixed_test line :
  raw_prefixed line
  → negb (bool_decide (length line = 0%nat))
    && existsb (λ val, bool_decide (head line = Some val)) raw_prefixes = true.
Proof.
  intros (c & Hh & Hc). apply andb_true_iff. split.
  - destruct line; [done|]. done.
  - apply existsb_exists. exists c. split; [by apply list_elem_of_In|].
    by apply bool_decide_eq_true.
Qed.

Lemma raw_prefixed_head line c : raw_prefixed line → head line = Some c → c ∈ raw_prefixes.
Proof. intros (c' & Hh & Hc) Hh'. congruence. Qed.

Lemma classify_raw_prefixed line : raw_prefixed line → classify line = Raw.
Proof.
  intros Hr. unfold classify.
  rewrite bool_decide_eq_false_2.
  - rewrite (raw_prefixed_test _ Hr). by destruct (parseLine line) as [[? ?]|].
  - intros Hh. apply (raw_prefixed_head _ _ Hr) in Hh. revert Hh.
    apply (bool_decide_unpack _). by vm_compute.
Qed.

Lemma strip_BOM_head line c : head line = Some c → c ≠ 239%N → strip_BOM line = line.
Proof.
  intros Hh Hc. unfold strip_BOM. rewrite bool_decide_eq_false_2; [done|].
  destruct line as [|x line]; [done|]. simplify_eq/=.
  unfold JS.substr, JS.start_pos. simpl. unfold BOM. congruence.
Qed.

(** The loop body, by the kind of the line. *)
Lemma load_step_eq st line0 :
  load_step st line0
  = let line := if first_line st then strip_BOM line0 else line0 in
    let fc := load_line (ls_file st, current_section st) line in
    mkLoadState fc.1 fc.2 false.
Proof.
  unfold load_step, load_line, classify, strip_BOM.
  destruct (first_line st); simpl;
    repeat (case_bool_decide || case_match || simplify_eq/= || done).
Qed.

Lemma load_steps_eq f cur ls :
  foldl load_step (mkLoadState f cur false) ls
  = let fc := foldl load_line (f, cur) ls in mkLoadState fc.1 fc.2 false.
Proof.
  revert f cur. induction ls as [|l ls IH]; intros f cur; [done|].
  simpl foldl. rewrite load_step_eq. simpl.
  destruct (load_line (f, cur) l) as [f' cur']. apply IH.
Qed.

Lemma load_eq input keep f :
  load input keep f
  = (true, (foldl load_line (if keep then f else mkIniFile [], None) (source_lines input)).1).
Proof.
  unfold load, load_init. destruct input as [|l ls]; [done|].
  simpl foldl. rewrite load_step_eq. simpl.
  destruct (load_line _ (strip_BOM l)) as [f' cur']. by rewrite load_steps_eq.
Qed.

Lemma load_step_raw_prefixed st i line :
  current_section st = Some i → raw_prefixed line →
  load_step st line
  = mkLoadState (mkIniFile (alter (sec_pushLine line) i (sections (ls_file st)))) (Some i) false.
Proof.
  intros Hi Hr. rewrite load_step_eq.
  assert (strip_BOM line = line) as Hb.
  { destruct Hr as (c & Hh & Hc). apply (strip_BOM_head _ c Hh).
    intros ->. revert Hc. apply (bool_decide_unpack _). by vm_compute. }
  assert ((if first_line st then strip_BOM line else line) = line) as -> by (by destruct (first_line st)).
  simpl. unfold load_line. by rewrite Hi, classify_raw_prefixed.
Qed.


Lemma ex_raw_lines_prefixed : Forall raw_prefixed ex_raw_lines.
Proof.
  repeat constructor;
    (eexists; split; [reflexivity|apply (bool_decide_unpack _); by vm_compute]).
Qed.


(** ** The invariant over the mutation interface *)

Lemma getSection_Some n f i s :
  getSection n f = Some (i, s) → sections f !! i = Some s ∧ name s = n.
Proof. unfold getSection. intros (? & ? & _)%list_find_Some. done. Qed.

Lemma getOrCreateSection_inv n f : file_inv f → file_inv (getOrCreateSection n f).2.
Proof.
  unfold getOrCreateSection, file_inv. intros Hf.
  destruct (getSection n f) as [[i s]|]; [done|]. simpl.
  apply Forall_app. split; [done|]. constructor; [apply new_Section_inv|constructor].
Qed.

Lemma alter_inv g i f :
  (∀ s, sec_inv s → sec_inv (g s)) → file_inv f →
  file_inv (mkIniFile (alter g i (sections f))).
Proof. unfold file_inv. intros Hg Hf. simpl. apply Forall_alter; auto. Qed.

Lemma load_line_inv fc line : file_inv fc.1 → file_inv (load_line fc line).1.
Proof.
  destruct fc as [f cur]. unfold load_line. simpl. intros Hf.
  destruct (classify line) as [n| | |k v].
  - pose proof (getOrCreateSection_inv n f Hf).
    by destruct (getOrCreateSection n f).
  - done.
  - destruct cur; [|done]. by apply alter_inv; [apply sec_pushLine_inv|].
  - destruct cur; [|done]. by apply alter_inv; [apply sec_set_inv|].
Qed.

Lemma load_lines_inv fc ls : file_inv fc.1 → file_inv (foldl load_line fc ls).1.
Proof.
  revert fc. induction ls as [|l ls IH]; intros fc Hf; [done|].
  simpl. by apply IH, load_line_inv.
Qed.

Lemma load_inv input keep f : file_inv f → file_inv (load input keep f).2.
Proof.
  intros Hf. rewrite load_eq. simpl. apply load_lines_inv. simpl.
  destruct keep; [done|]. constructor.
Qed.

Lemma deleteSection_inv n f : file_inv f → file_inv (deleteSection n f).2.
Proof.
  unfold deleteSection, file_inv. intros Hf.
  destruct (getSection n f) as [[i s]|]; [|done]. simpl. by apply Forall_delete.
Qed.

Lemma setLines_inv n ls f : file_inv f → file_inv (setLines n ls f).
Proof.
  intros Hf. unfold setLines.
  pose proof (getOrCreateSection_inv n f Hf).
  destruct (getOrCreateSection n f) as [i f'].
  by apply alter_inv; [apply sec_setLines_inv|].
Qed.

Lemma deleteKey_inv n k f : file_inv f → file_inv (deleteKey n k f).2.
Proof.
  unfold deleteKey. intros Hf.
  destruct (getSection n f) as [[i s]|] eqn:Hg; [|done].
  apply getSection_Some in Hg as [Hi _].
  pose proof (sec_delete_inv k s (proj1 (Forall_lookup _ _) Hf i s Hi)) as Hs.
  destruct (sec_delete k s) as [r s']. simpl in *.
  unfold file_inv. simpl. by apply Forall_insert.
Qed.

Lemma run_call_inv c s : sec_inv s → sec_inv (run_call c s).
Proof.
  destruct c; simpl; auto using sec_set_inv, sec_delete_inv, sec_setLines_inv.
Qed.

Lemma reachable_file_inv f : reachable f → file_inv f.
Proof.
  induction 1 as [|n f _ IH|n f _ IH|n ls f _ IH|n k f _ IH|input keep f _ IH|i c f _ IH].
  - constructor.
  - by apply getOrCreateSection_inv.
  - by apply deleteSection_inv.
  - by apply setLines_inv.
  - by apply deleteKey_inv.
  - by apply load_inv.
  - apply alter_inv; [apply run_call_inv|done].
Qed.



(** ** The sections that [load] touches *)

Lemma getSection_None n f :
  getSection n f = None ↔ Forall (λ s, name s ≠ n) (sections f).
Proof. apply list_find_None. Qed.

Lemma getSection_alter g i n f :
  (∀ s, name (g s) = name s) →
  getSection n (mkIniFile (alter g i (sections f)))
  = (λ '(j, s), (j, if decide (i = j) then g s else s)) <$> getSection n f.
Proof.
  intros Hg. destruct (getSection n f) as [[j s]|] eqn:Hf; simpl.
  - unfold getSection in *. simpl. apply list_find_Some in Hf as (Hj & Hn & Hmin).
    apply list_find_Some. split_and!.
    + rewrite list_lookup_alter. case_decide; subst; by rewrite Hj.
    + case_decide; by rewrite ?Hg.
    + intros j' y. rewrite list_lookup_alter. intros Hy Hlt.
      case_decide; subst.
      * destruct (sections f !! j') as [y0|] eqn:Hy0; simplify_eq/=.
        rewrite Hg. by eapply Hmin.
      * by eapply Hmin.
  - apply getSection_None. apply getSection_None in Hf. simpl.
    apply Forall_alter; [done|]. intros s _. by rewrite Hg.
Qed.

Lemma getSection_app_new n m f :
  getSection m f = None →
  getSection n (mkIniFile (sections f ++ [new_Section m]))
  = match getSection n f with
    | Some r => Some r
    | None => if decide (m = n) then Some (length (sections f), new_Section m) else None
    end.
Proof.
  intros Hm. unfold getSection in *. simpl.
  destruct (list_find (λ s, name s = n) (sections f)) as [[j s]|] eqn:Hf.
  - by apply list_find_app_l.
  - rewrite list_find_app_r by done. simpl. by case_decide.
Qed.

Lemma getOrCreateSection_cur m f :
  ∃ s, getSection m (getOrCreateSection m f).2 = Some ((getOrCreateSection m f).1, s).
Proof.
  unfold getOrCreateSection. destruct (getSection m f) as [[i s]|] eqn:Hm; simpl.
  - eauto.
  - rewrite getSection_app_new, Hm by done. rewrite decide_True by done. eauto.
Qed.

Lemma getOrCreateSection_value m f n k :
  value_of (getOrCreateSection m f).2 n k = value_of f n k.
Proof.
  unfold getOrCreateSection, value_of.
  destruct (getSection m f) as [[i s]|] eqn:Hm; simpl; [done|].
  rewrite getSection_app_new by done.
  destruct (getSection n f) as [[j s]|]; simpl; [done|].
  case_decide; simpl; [|done]. apply lookup_empty.
Qed.

Lemma getOrCreateSection_lookup m f j s :
  sections f !! j = Some s → sections (getOrCreateSection m f).2 !! j = Some s.
Proof.
  unfold getOrCreateSection. destruct (getSection m f) as [[i s0]|]; simpl; [done|].
  apply lookup_app_l_Some.
Qed.

Lemma getOrCreateSection_elem m f s :
  s ∈ sections (getOrCreateSection m f).2 → s ∈ sections f ∨ name s = m.
Proof.
  unfold getOrCreateSection. destruct (getSection m f) as [[i s0]|]; simpl; [by left|].
  rewrite elem_of_app, list_elem_of_singleton. intros [?| ->]; [by left|by right].
Qed.

Lemma sec_extends_refl s : sec_extends s s.
Proof. by split_and!. Qed.

Lemma sec_extends_trans s1 s2 s3 : sec_extends s1 s2 → sec_extends s2 s3 → sec_extends s1 s3.
Proof.
  intros (Hn & Hk & Hl) (Hn' & Hk' & Hl'). split_and!; [congruence|by etrans..].
Qed.

Lemma sec_pushLine_extends line s : sec_extends s (sec_pushLine line s).
Proof. split_and!; [done..|]. simpl. by apply prefix_app_r. Qed.

Lemma sec_set_extends key v s : sec_extends s (sec_set key v s).
Proof.
  split_and!; [done| |done]. unfold sec_set. simpl.
  destruct (negb _); [by apply prefix_app_r|done].
Qed.

Lemma alter_extends g i f j s :
  (∀ s, sec_extends s (g s)) → sections f !! j = Some s →
  ∃ s', alter g i (sections f) !! j = Some s' ∧ sec_extends s s'.
Proof.
  intros Hg Hj. rewrite list_lookup_alter. case_decide; subst.
  - rewrite Hj. simpl. eauto.
  - eauto using sec_extends_refl.
Qed.

(** The current section stays the first section of its name. *)
Lemma load_line_cur f cur cn line :
  cur_ok f cur cn →
  cur_ok (load_line (f, cur) line).1 (load_line (f, cur) line).2 (next_name cn line).
Proof.
  intros Hc. unfold load_line, next_name.
  destruct (classify line) as [m| | |key value].
  - pose proof (getOrCreateSection_cur m f) as [s Hs].
    destruct (getOrCreateSection m f) as [i f']. simpl in *. eauto.
  - done.
  - destruct cur as [i|], cn as [c|]; try done. simpl in *.
    destruct Hc as [s Hs]. rewrite getSection_alter, Hs by done. simpl. eauto.
  - destruct cur as [i|], cn as [c|]; try done. simpl in *.
    destruct Hc as [s Hs]. rewrite getSection_alter, Hs by done. simpl. eauto.
Qed.

(** Two sections found by name are the same object exactly when the names
    are the same. *)
Lemma getSection_same_index n c f i s s' :
  getSection n f = Some (i, s) → getSection c f = Some (i, s') → n = c.
Proof. intros [H1 <-]%getSection_Some [H2 <-]%getSection_Some. congruence. Qed.

Lemma load_line_value f cur cn line n k :
  cur_ok f cur cn →
  value_of (load_line (f, cur) line).1 n k
  = match classify line with
    | Pair key value =>
        if bool_decide (cn = Some n ∧ key = k) then Some value else value_of f n k
    | _ => value_of f n k
    end.
Proof.
  intros Hc. unfold load_line.
  destruct (classify line) as [m| | |key value].
  - pose proof (getOrCreateSection_value m f n k).
    by destruct (getOrCreateSection m f).
  - done.
  - destruct cur as [i|]; [|done]. simpl. unfold value_of.
    rewrite getSection_alter by done.
    destruct (getSection n f) as [[j s]|]; simpl; [|done]. by case_decide.
  - destruct cur as [i|], cn as [c|]; try done; simpl in *.
    destruct Hc as [s Hs]. unfold value_of. rewrite getSection_alter by done.
    destruct (getSection n f) as [[j s0]|] eqn:Hn; simpl.
    + case_decide as Hij; subst.
      * pose proof (getSection_same_index _ _ _ _ _ _ Hn Hs) as ->.
        rewrite sec_set_values. case_bool_decide as Hb.
        -- destruct Hb as [_ ->]. apply lookup_insert_eq.
        -- apply lookup_insert_ne. intros ->. by apply Hb.
      * rewrite bool_decide_eq_false_2; [done|].
        intros [[= ->] _]. apply Hij. congruence.
    + rewrite bool_decide_eq_false_2; [done|].
      intros [[= ->] _]. congruence.
Qed.

(** No line removes a section, a key or a raw line. *)
Lemma load_line_extends f cur line j s :
  sections f !! j = Some s →
  ∃ s', sections (load_line (f, cur) line).1 !! j = Some s' ∧ sec_extends s s'.
Proof.
  intros Hj. unfold load_line.
  destruct (classify line) as [m| | |key value].
  - pose proof (getOrCreateSection_lookup m f j s Hj).
    destruct (getOrCreateSection m f). simpl in *. eauto using sec_extends_refl.
  - eauto using sec_extends_refl.
  - destruct cur; simpl; [|eauto using sec_extends_refl].
    apply alter_extends; [apply sec_pushLine_extends|done].
  - destruct cur; simpl; [|eauto using sec_extends_refl].
    apply alter_extends; [apply sec_set_extends|done].
Qed.

(** A line leaves every section alone that is not the current one. *)
Lemma load_line_frame f cur cn line j s :
  cur_ok f cur cn → sections f !! j = Some s → cn ≠ Some (name s) →
  sections (load_line (f, cur) line).1 !! j = Some s.
Proof.
  intros Hc Hj Hn. unfold load_line.
  assert (∀ i g, cur = Some i → alter g i (sections f) !! j = Some s) as Halt.
  { intros i g ->. destruct cn as [c|]; [|done]. destruct Hc as [s' [Hi Hs']%getSection_Some].
    rewrite list_lookup_alter_ne; [done|]. intros ->. congruence. }
  destruct (classify line) as [m| | |key value].
  - pose proof (getOrCreateSection_lookup m f j s Hj).
    by destruct (getOrCreateSection m f).
  - done.
  - destruct cur; simpl; eauto.
  - destruct cur; simpl; eauto.
Qed.

(** A line adds at most the section that it names. *)
Lemma load_line_elem f cur line s' :
  s' ∈ sections (load_line (f, cur) line).1 →
  (∃ s, s ∈ sections f ∧ name s = name s') ∨ classify line = Header (name s').
Proof.
  unfold load_line.
  assert (∀ i g, (∀ s, name (g s) = name s) → s' ∈ alter g i (sections f) →
                 ∃ s, s ∈ sections f ∧ name s = name s') as Halt.
  { intros i g Hg [j Hj]%list_elem_of_lookup. rewrite list_lookup_alter in Hj.
    case_decide; subst.
    - destruct (sections f !! j) as [s|] eqn:Hs; simplify_eq/=.
      exists s. split; [by eapply list_elem_of_lookup_2|by rewrite Hg].
    - exists s'. split; [by eapply list_elem_of_lookup_2|done]. }
  destruct (classify line) as [m| | |key value].
  - intros Hs. pose proof (getOrCreateSection_elem m f s').
    destruct (getOrCreateSection m f). simpl in *.
    destruct H as [?| <-]; [done|left; eauto|by right].
  - left; eauto.
  - destruct cur; simpl; [|left; eauto]. intros Hs. left. eapply Halt; [|exact Hs]. done.
  - destruct cur; simpl; [|left; eauto]. intros Hs. left. eapply Halt; [|exact Hs]. done.
Qed.

Lemma load_lines_value f cur cn ls n k :
  cur_ok f cur cn →
  value_of (foldl load_line (f, cur) ls).1 n k
  = match assigned cn ls n k with
    | Some v => Some v
    | None => value_of f n k
    end.
Proof.
  revert f cur cn. induction ls as [|l ls IH]; intros f cur cn Hc; [done|].
  simpl foldl. pose proof (load_line_cur f cur cn l Hc) as Hc'.
  pose proof (load_line_value f cur cn l n k Hc) as Hv.
  destruct (load_line (f, cur) l) as [f' cur']. simpl in Hc', Hv.
  rewrite (IH f' cur' _ Hc'), Hv. unfold next_name. simpl assigned.
  destruct (classify l) as [m| | |key value]; try done.
  destruct (assigned cn ls n k); [done|]. by case_bool_decide.
Qed.

Lemma load_lines_extends f cur ls j s :
  sections f !! j = Some s →
  ∃ s', sections (foldl load_line (f, cur) ls).1 !! j = Some s' ∧ sec_extends s s'.
Proof.
  revert f cur s. induction ls as [|l ls IH]; intros f cur s Hj.
  - eauto using sec_extends_refl.
  - simpl foldl. destruct (load_line_extends f cur l j s Hj) as (s1 & H1 & He1).
    destruct (load_line (f, cur) l) as [f' cur']. simpl in H1.
    destruct (IH f' cur' s1 H1) as (s2 & H2 & He2).
    eauto using sec_extends_trans.
Qed.

Lemma load_lines_frame f cur cn ls j s :
  cur_ok f cur cn → sections f !! j = Some s → cn ≠ Some (name s) →
  (∀ line, line ∈ ls → classify line ≠ Header (name s)) →
  sections (foldl load_line (f, cur) ls).1 !! j = Some s.
Proof.
  revert f cur cn. induction ls as [|l ls IH]; intros f cur cn Hc Hj Hn Hls; [done|].
  simpl foldl. pose proof (load_line_cur f cur cn l Hc) as Hc'.
  pose proof (load_line_frame f cur cn l j s Hc Hj Hn) as Hj'.
  destruct (load_line (f, cur) l) as [f' cur']. simpl in Hc', Hj'.
  apply (IH f' cur' _ Hc' Hj').
  - unfold next_name. pose proof (Hls l (list_elem_of_here _ _)) as Hl.
    destruct (classify l); congruence.
  - intros line Hin. apply Hls. by apply list_elem_of_further.
Qed.

Lemma load_lines_elem f cur ls s' :
  s' ∈ sections (foldl load_line (f, cur) ls).1 →
  (∃ s, s ∈ sections f ∧ name s = name s')
  ∨ (∃ line, line ∈ ls ∧ classify line = Header (name s')).
Proof.
  revert f cur. induction ls as [|l ls IH]; intros f cur Hs; [left; eauto|].
  simpl foldl in Hs. pose proof (load_line_elem f cur l) as Hl.
  destruct (load_line (f, cur) l) as [f' cur']. simpl in Hl.
  destruct (IH f' cur' Hs) as [(s1 & Hs1 & Hn1)|(line & Hin & Hh)].
  - destruct (Hl s1 Hs1) as [(s0 & Hs0 & Hn0)|Hh].
    + left. exists s0. split; [done|congruence].
    + right. exists l. split; [apply list_elem_of_here|congruence].
  - right. exists line. split; [by apply list_elem_of_further|done].
Qed.

(** ** Distinct section names *)

Lemma names_alter g i (l : list IniSection) :
  (∀ s, name (g s) = name s) → name <$> alter g i l = name <$> l.
Proof.
  intros Hg. rewrite (list_fmap_alter name g id).
  - by apply list_alter_id.
  - apply Forall_forall. intros s _. apply Hg.
Qed.

Lemma run_call_name c s : name (run_call c s) = name s.
Proof.
  destruct c as [k v|k|ls]; simpl; [done| |done].
  unfold sec_delete. by destruct (bool_decide _).
Qed.

Lemma getOrCreateSection_names n f :
  NoDup (name <$> sections f) → NoDup (name <$> sections (getOrCreateSection n f).2).
Proof.
  intros Hnd. unfold getOrCreateSection.
  destruct (getSection n f) as [[i s]|] eqn:Hn; [done|]. simpl.
  rewrite fmap_app. apply NoDup_app. split_and!; [done| |apply NoDup_singleton].
  intros m [s [Hm Hs]]%list_elem_of_fmap Hin. simpl in Hin.
  apply list_elem_of_singleton in Hin. subst.
  apply getSection_None in Hn. by apply (proj1 (Forall_forall _ _) Hn s Hs).
Qed.

Lemma load_line_names fc line :
  NoDup (name <$> sections fc.1) → NoDup (name <$> sections (load_line fc line).1).
Proof.
  destruct fc as [f cur]. unfold load_line. simpl. intros Hnd.
  destruct (classify line) as [n| | |k v].
  - pose proof (getOrCreateSection_names n f Hnd).
    by destruct (getOrCreateSection n f).
  - done.
  - destruct cur; [|done]. simpl. by rewrite names_alter.
  - destruct cur; [|done]. simpl. by rewrite names_alter.
Qed.

Lemma load_lines_names fc ls :
  NoDup (name <$> sections fc.1) → NoDup (name <$> sections (foldl load_line fc ls).1).
Proof.
  revert fc. induction ls as [|l ls IH]; intros fc Hnd; [done|].
  simpl. by apply IH, load_line_names.
Qed.

(** Every document that the interface produces has pairwise distinct section
    names and sections that satisfy their invariant. *)
Lemma reachable_wf f : reachable f → file_wf f.
Proof.
  intros Hr. split; [|by apply reachable_file_inv].
  induction Hr as [|n f _ IH|n f _ IH|n ls f _ IH|n k f _ IH|input keep f _ IH|i c f _ IH].
  - constructor.
  - by apply getOrCreateSection_names.
  - unfold deleteSection. destruct (getSection n f) as [[i s]|]; [|done]. simpl.
    rewrite list_fmap_delete. eapply sublist_NoDup; [exact IH|apply sublist_delete].
  - unfold setLines. pose proof (getOrCreateSection_names n f IH).
    destruct (getOrCreateSection n f) as [i f']. simpl in *. by rewrite names_alter.
  - unfold deleteKey. destruct (getSection n f) as [[i s]|] eqn:Hg; [|done].
    apply getSection_Some in Hg as [Hi _].
    pose proof (run_call_name (CallDelete k) s) as Hn. simpl in Hn.
    destruct (sec_delete k s) as [r s']. simpl in *.
    rewrite list_fmap_insert, Hn. rewrite list_insert_id; [done|].
    by rewrite list_lookup_fmap, Hi.
  - rewrite load_eq. simpl. apply load_lines_names. simpl.
    destruct keep; [done|constructor].
  - simpl. rewrite names_alter; [done|apply run_call_name].
Qed.

(** ** Reading back what [save] wrote *)

Lemma classify_header n rest :
  clean_name n → classify ([code "["] ++ n ++ [code "]"] ++ rest) = Header n.
Proof.
  intros Hn. unfold classify. rewrite bool_decide_eq_true_2 by done.
  assert (JS.indexOf ([code "["] ++ n ++ [code "]"] ++ rest) (code "]")
          = Z.of_nat (S (length n))) as ->.
  { change ([code "["] ++ n ++ [code "]"] ++ rest) with ((code "[" :: n) ++ code "]" :: rest).
    apply indexOf_split. apply not_elem_of_cons. split; [|done].
    apply (bool_decide_unpack _). by vm_compute. }
  rewrite bool_decide_eq_true_2 by lia. f_equal.
  replace (Z.of_nat (S (length n)) - 1) with (Z.of_nat (length n)) by lia.
  apply (substr_inner (code "[") n (code "]" :: rest)).
Qed.

Lemma strip_BOM_header s : strip_BOM (header_text s) = header_text s.
Proof.
  apply (strip_BOM_head _ (code "[")); [done|].
  apply (bool_decide_unpack _). by vm_compute.
Qed.

Lemma classify_blank : classify [] = Raw.
Proof. reflexivity. Qed.

(** The first character of a written pair line. *)
Lemma pair_line_head k v c :
  clean_key k → head (k ++ [code "="] ++ v) = Some c → c ∉ reserved_first.
Proof.
  intros [_ Hk]. destruct k as [|c0 k]; simpl.
  - intros [= <-]. apply (bool_decide_unpack _). by vm_compute.
  - intros [= <-]. by apply Hk.
Qed.

Lemma classify_pair k v :
  clean_key k → clean_value v → classify (k ++ [code "="] ++ v) = Pair k v.
Proof.
  intros Hk Hv. pose proof (pair_line_head k v) as Hh.
  assert (∀ c, c ∈ reserved_first → head (k ++ [code "="] ++ v) ≠ Some c) as Hne.
  { intros c Hc Hhead. by apply (Hh c Hk Hhead). }
  unfold classify.
  rewrite bool_decide_eq_false_2 by (apply Hne; apply (bool_decide_unpack _); by vm_compute).
  change (k ++ [code "="] ++ v) with (k ++ code "=" :: v) in *.
  rewrite parseLine_pair.
  - rewrite (filter_all _ k), (filter_all _ v), (filter_all _ v).
    + replace (existsb _ raw_prefixes) with false; [by rewrite andb_false_r|].
      symmetry. apply not_true_is_false. intros (c & Hin & Hc)%existsb_exists.
      apply bool_decide_eq_true in Hc. apply list_elem_of_In in Hin.
      apply (Hne c); [|done]. revert Hin. unfold raw_prefixes, reserved_first.
      rewrite !elem_of_cons. tauto.
    + eapply Forall_impl; [exact Hv|]. by intros c [? ?].
    + eapply Forall_impl; [exact Hv|]. by intros c [? ?].
    + eapply Forall_impl; [exact (proj1 Hk)|]. by intros c [? ?].
  - intros Hin. destruct Hk as [Hk _].
    apply (proj1 (Forall_forall _ _) Hk) in Hin. by destruct Hin.
  - apply Hne. apply (bool_decide_unpack _). by vm_compute.
Qed.

(** The value map and the key order after a run of [set]. *)
Lemma foldl_set_values (g : str → str) t ks k :
  values (foldl (λ t k, sec_set k (g k) t) t ks) !! k
  = if decide (k ∈ ks) then Some (g k) else values t !! k.
Proof.
  revert t. induction ks as [|k0 ks IH]; intros t; cbn [foldl].
  - rewrite decide_False; [done|]. apply not_elem_of_nil.
  - rewrite IH, sec_set_values. destruct (decide (k ∈ ks)) as [Hin|Hnin].
    + rewrite decide_True; [done|]. by apply list_elem_of_further.
    + destruct (decide (k0 = k)) as [->|Hne].
      * rewrite lookup_insert_eq, decide_True; [done|]. apply list_elem_of_here.
      * rewrite lookup_insert_ne by done. rewrite decide_False; [done|].
        rewrite not_elem_of_cons. split; [congruence|done].
Qed.

Lemma foldl_set_keysOrder (g : str → str) t ks :
  NoDup ks → (∀ k, k ∈ ks → values t !! k = None) →
  keysOrder (foldl (λ t k, sec_set k (g k) t) t ks) = keysOrder t ++ ks.
Proof.
  intros Hnd. revert t. induction Hnd as [|k0 ks Hk0 Hnd IH]; intros t Ht; simpl.
  - by rewrite app_nil_r.
  - rewrite IH.
    + rewrite sec_set_new by (apply Ht, list_elem_of_here). simpl.
      by rewrite <- app_assoc.
    + intros k Hk. rewrite sec_set_values, lookup_insert_ne by congruence.
      by apply Ht, list_elem_of_further.
Qed.

Lemma foldl_set_name (g : str → str) t ks :
  name (foldl (λ t k, sec_set k (g k) t) t ks) = name t.
Proof. revert t. induction ks as [|k0 ks IH]; intros t; simpl; [done|]. by rewrite IH. Qed.

Lemma foldl_set_lines (g : str → str) t ks :
  lines (foldl (λ t k, sec_set k (g k) t) t ks) = lines t.
Proof. revert t. induction ks as [|k0 ks IH]; intros t; simpl; [done|]. by rewrite IH. Qed.

Lemma IniSection_eq s t :
  name s = name t → keysOrder s = keysOrder t → lines s = lines t →
  values s = values t → s = t.
Proof. destruct s, t. simpl. by intros -> -> -> ->. Qed.

(** Setting every key of a section to its stored value, from a new section
    of the same name, rebuilds the key order and the value map. *)
Lemma foldl_set_rebuild s :
  sec_inv s →
  foldl (λ t k, sec_set k (value_text (values s !! k)) t) (new_Section (name s)) (keysOrder s)
  = mkSection (name s) (keysOrder s) [] (values s).
Proof.
  intros Hs. apply IniSection_eq; simpl.
  - by rewrite foldl_set_name.
  - rewrite foldl_set_keysOrder; [done|apply Hs|]. intros k _. apply lookup_empty.
  - by rewrite foldl_set_lines.
  - apply map_eq. intros k. rewrite foldl_set_values. simpl.
    pose proof (sec_inv_elem s k Hs) as Hk. case_decide as Hin.
    + apply Hk in Hin as [v Hv]. by rewrite Hv.
    + rewrite lookup_empty. destruct (values s !! k) eqn:Hv; [|done].
      destruct Hin. apply Hk. eauto.
Qed.

Lemma alter_last {A} (g : A → A) (l : list A) (x : A) :
  alter g (length l) (l ++ [x]) = l ++ [g x].
Proof.
  rewrite alter_app_r_alt by lia. by rewrite Nat.sub_diag.
Qed.

(** The pair lines of a section, read into the last section of a document. *)
Lemma load_pair_lines s F0 t ks :
  Forall clean_key ks →
  (∀ k, k ∈ ks → ∃ v, values s !! k = Some v ∧ clean_value v) →
  foldl load_line (mkIniFile (F0 ++ [t]), Some (length F0)) (pair_text s <$> ks)
  = (mkIniFile (F0 ++ [foldl (λ t k, sec_set k (value_text (values s !! k)) t) t ks]),
     Some (length F0)).
Proof.
  intros Hks. revert t. induction Hks as [|k ks Hk Hks IH]; intros t Hv; [done|].
  rewrite fmap_cons. cbn [foldl].
  destruct (Hv k (list_elem_of_here _ _)) as (v & Hkv & Hcv).
  assert (load_line (mkIniFile (F0 ++ [t]), Some (length F0)) (pair_text s k)
          = (mkIniFile (F0 ++ [sec_set k (value_text (values s !! k)) t]), Some (length F0)))
    as ->.
  { unfold load_line, pair_text. rewrite Hkv. simpl value_text.
    rewrite classify_pair by done. simpl. by rewrite alter_last. }
  apply IH. intros k' Hk'. by apply Hv, list_elem_of_further.
Qed.

(** The text of one section, read into a document without that name. *)
Lemma load_section_text s F cur :
  sec_inv s → clean_section s → keysOrder s ≠ [] →
  getSection (name s) F = None →
  foldl load_line (F, cur) (save_section [] s)
  = (mkIniFile (sections F ++ [reloaded s]), Some (length (sections F))).
Proof.
  intros Hs (Hn & Hks & Hvs) Hne HF.
  rewrite save_section_eq, decide_False by done.
  rewrite app_nil_l. cbn [foldl].
  assert (load_line (F, cur) (header_text s)
          = (mkIniFile (sections F ++ [new_Section (name s)]), Some (length (sections F))))
    as ->.
  { unfold load_line, header_text.
    change ([code "["] ++ name s ++ [code "]"])
      with ([code "["] ++ name s ++ [code "]"] ++ []).
    rewrite classify_header by done. unfold getOrCreateSection. by rewrite HF. }
  rewrite foldl_app, load_pair_lines.
  - rewrite foldl_set_rebuild by done. cbn [foldl].
    unfold load_line. rewrite classify_blank. simpl. by rewrite alter_last.
  - done.
  - intros k Hk. apply (sec_inv_elem s k Hs) in Hk as [v Hv]. eauto.
Qed.

Lemma getSection_reloaded_None n done_ :
  n ∉ name <$> done_ → getSection n (mkIniFile (reloaded <$> done_)) = None.
Proof.
  intros Hn. apply getSection_None. simpl. apply Forall_fmap, Forall_forall.
  intros s Hs. simpl. intros <-. apply Hn. by apply list_elem_of_fmap_2.
Qed.

(** The text of a whole document, read section by section. *)
Lemma load_sections done_ rest cur :
  NoDup (name <$> (done_ ++ rest)) →
  Forall sec_inv rest → Forall clean_section rest →
  Forall (λ s, keysOrder s ≠ []) rest →
  (foldl load_line (mkIniFile (reloaded <$> done_), cur) (rest ≫= save_section [])).1
  = mkIniFile (reloaded <$> (done_ ++ rest)).
Proof.
  revert done_ cur. induction rest as [|s rest IH]; intros done_ cur Hnd Hinv Hcl Hne.
  - by rewrite app_nil_r.
  - rewrite bind_cons, foldl_app.
    apply Forall_cons in Hinv as [Hs Hinv]. apply Forall_cons in Hcl as [Hc Hcl].
    apply Forall_cons in Hne as [Hk Hne].
    rewrite load_section_text; [|done..|].
    + simpl sections.
      replace (reloaded <$> done_ ++ s :: rest) with (reloaded <$> (done_ ++ [s]) ++ rest)
        by (by rewrite <- app_assoc).
      replace ((reloaded <$> done_) ++ [reloaded s]) with (reloaded <$> (done_ ++ [s]))
        by (by rewrite fmap_app).
      apply IH; [|done..]. by rewrite <- app_assoc.
    + apply getSection_reloaded_None. rewrite fmap_app, fmap_cons in Hnd.
      apply NoDup_app in Hnd as (_ & Hdisj & _). intros Hin.
      apply (Hdisj _ Hin). apply list_elem_of_here.
Qed.

Lemma source_lines_save f : source_lines (save f).2 = (save f).2.
Proof.
  rewrite save_eq. simpl. destruct (sections f) as [|s secs]; [done|].
  rewrite bind_cons, (save_section_eq [] s). simpl. by rewrite strip_BOM_header.
Qed.

(** What [load] reads from the output of [save]. *)
Lemma load_save keep f :
  file_wf f → Forall clean_section (sections f) →
  Forall (λ s, keysOrder s ≠ []) (sections f) →
  load (save f).2 keep new_IniFile = (true, mkIniFile (reloaded <$> sections f)).
Proof.
  intros [Hnd Hinv] Hcl Hne. rewrite load_eq, source_lines_save, save_eq. simpl.
  f_equal. assert ((if keep then new_IniFile else mkIniFile []) = mkIniFile (reloaded <$> []))
    as -> by (by destruct keep).
  by rewrite load_sections.
Qed.

Lemma getSection_reloaded f s :
  NoDup (name <$> sections f) → s ∈ sections f →
  ∃ i, getSection (name s) (mkIniFile (reloaded <$> sections f)) = Some (i, reloaded s).
Proof.
  intros Hnd [i Hi]%list_elem_of_lookup. exists i. apply list_find_Some. simpl.
  split_and!.
  - by rewrite list_lookup_fmap, Hi.
  - done.
  - intros j y Hj Hlt Hy. rewrite list_lookup_fmap in Hj.
    destruct (sections f !! j) as [y0|] eqn:Hy0; simplify_eq/=.
    assert (i = j); [|lia].
    apply (NoDup_lookup _ i j (name s) Hnd); rewrite list_lookup_fmap.
    + by rewrite Hi.
    + rewrite Hy0. simpl. by rewrite Hy.
Qed.

(** ** The file between [save] and [load] *)

Lemma through_utf8_plain_cons c t :
  is_surrogate_free c → through_utf8 (c :: t) = c :: through_utf8 t.
Proof. intros [Hh Hl]. simpl. by rewrite Hh, Hl. Qed.

Lemma through_utf8_cons2 x y t :
  through_utf8 (x :: y :: t)
  = if is_high_surrogate x then
      if is_low_surrogate y then x :: y :: through_utf8 t
      else 65533%N :: through_utf8 (y :: t)
    else if is_low_surrogate x then 65533%N :: through_utf8 (y :: t)
    else x :: through_utf8 (y :: t).
Proof. reflexivity. Qed.

(** A code unit that is no surrogate splits the text for the encoding. *)
Lemma through_utf8_plain a c b :
  is_surrogate_free c →
  through_utf8 (a ++ c :: b) = through_utf8 a ++ c :: through_utf8 b.
Proof.
  intros Hc.
  assert (∀ a, (∀ b, through_utf8 (a ++ c :: b) = through_utf8 a ++ c :: through_utf8 b) ∧
               (∀ x b, through_utf8 (x :: a ++ c :: b)
                       = through_utf8 (x :: a) ++ c :: through_utf8 b)) as H.
  { clear a b. induction a as [|y a [IH1 IH2]].
    - split; intros; [by apply through_utf8_plain_cons|].
      destruct Hc as [Hh Hl]. simpl. rewrite Hh, Hl.
      destruct (is_high_surrogate x); [done|]. by destruct (is_low_surrogate x).
    - split; [apply IH2|]. intros x b.
      change ((y :: a) ++ c :: b) with (y :: a ++ c :: b).
      rewrite (through_utf8_cons2 x y (a ++ c :: b)), (through_utf8_cons2 x y a).
      rewrite IH1, (IH2 y b).
      destruct (is_high_surrogate x); [by destruct (is_low_surrogate y)|].
      by destruct (is_low_surrogate x). }
  apply H.
Qed.

Lemma well_formed_plain a c b :
  is_surrogate_free c → well_formed a → well_formed b → well_formed (a ++ c :: b).
Proof.
  unfold well_formed. intros Hc Ha Hb. by rewrite through_utf8_plain, Ha, Hb.
Qed.

Lemma line_end_surrogate_free : is_surrogate_free 10%N.
Proof. by split. Qed.

(** One written text, read back. *)
Lemma read_lines_from_line cur t rest :
  one_line t →
  read_lines_from cur (t ++ 10%N :: rest) = (cur ++ t) :: read_lines_from [] rest.
Proof.
  intros Ht. revert cur. induction Ht as [|c t Hc Ht IH]; intros cur.
  - simpl. by rewrite app_nil_r.
  - cbn [app read_lines_from].
    assert ((c =? 13)%N = false) as ->.
    { destruct (c =? 13)%N eqn:E; [|done]. apply N.eqb_eq in E as ->. by destruct Hc. }
    destruct (is_line_end c); [by destruct Hc|].
    rewrite IH. by rewrite <- app_assoc.
Qed.

(** The file gives back the texts written, when each is one well-formed
    line. *)
Lemma reopen_storable out : Forall storable out → reopen out = out.
Proof.
  unfold reopen, read_lines, file_text.
  induction 1 as [|t out [Hl Hw] _ IH]; [done|].
  rewrite bind_cons.
  assert (through_utf8 (t ++ [10%N]) = t ++ [10%N]) as ->.
  { apply (well_formed_plain t 10%N []); [apply line_end_surrogate_free|done..]. }
  rewrite <- app_assoc. cbn [app]. rewrite read_lines_from_line by done.
  by rewrite IH.
Qed.

Lemma storable_lit t :
  bool_decide (one_line t) = true → bool_decide (through_utf8 t = t) = true → storable t.
Proof. intros H1%bool_decide_eq_true H2%bool_decide_eq_true. by split. Qed.

Lemma storable_bracketed t : storable t → storable ([code "["] ++ t ++ [code "]"]).
Proof.
  intros [Hl Hw]. split.
  - apply Forall_cons. split; [by vm_compute|]. apply Forall_app. split; [done|].
    apply Forall_cons. split; [by vm_compute|]. constructor.
  - apply (well_formed_plain [] (code "[") (t ++ [code "]"])); [by split|done|].
    apply (well_formed_plain t (code "]") []); [by split|done..].
Qed.

Lemma storable_pair k v : storable k → storable v → storable (k ++ [code "="] ++ v).
Proof.
  intros [Hlk Hwk] [Hlv Hwv]. split.
  - apply Forall_app. split; [done|]. apply Forall_cons. split; [by vm_compute|done].
  - by apply (well_formed_plain k (code "=") v).
Qed.

(** Every text that [save] writes for a storable section is storable. *)
Lemma save_section_storable s : storable_section s → Forall storable (save_section [] s).
Proof.
  intros (Hn & Hks & Hls & Hvs). rewrite save_section_eq. cbn [app].
  apply Forall_cons. split; [by apply storable_bracketed|].
  apply Forall_app. split; [|by repeat constructor].
  case_decide; [done|]. apply Forall_fmap, Forall_forall. intros k Hk. simpl.
  apply storable_pair; [by apply (proj1 (Forall_forall _ _) Hks)|].
  destruct (values s !! k) as [v|] eqn:Hv; simpl; [by eapply Hvs|].
  by apply storable_lit; vm_compute.
Qed.

Lemma save_storable f :
  Forall storable_section (sections f) → Forall storable (save f).2.
Proof.
  rewrite save_eq. cbn [snd]. induction 1 as [|s secs Hs _ IH]; [constructor|].
  rewrite bind_cons. apply Forall_app. split; [by apply save_section_storable|done].
Qed.

Lemma reopen_save f :
  Forall storable_section (sections f) → reopen (save f).2 = (save f).2.
Proof. intros Hf. by apply reopen_storable, save_storable. Qed.

(** C1, as amended.  Take a document in which section names are pairwise
    distinct and every section satisfies its invariant, has at least one key
    and has no raw lines.  If every name, key and value is well-formed
    UTF-16 text (no surrogate outside a pair) without a line end (LF, CR,
    U+2028, U+2029), no section name contains a closing bracket, no key
    contains white space or [=] or starts with an opening bracket, [#], [$],
    [+] or [*], and no value contains white space or a quote character, then
    reading the file that [save] wrote into a new document gives, for every
    section, the same keys in the same order and, for every key, the same
    value through [get]. *)
Theorem save_load_roundtrip (f : IniFile) :
  file_wf f →
  Forall kv_only (sections f) →
  Forall clean_section (sections f) →
  Forall storable_section (sections f) →
  roundtrip_at f.
Proof.
  intros Hwf Hkv Hcl Hst s Hs. cbv zeta.
  rewrite reopen_save by done.
  rewrite load_save; [|done..|].
  - simpl. destruct (getSection_reloaded f s (proj1 Hwf) Hs) as [i Hi].
    split.
    + unfold getKeys. by rewrite Hi.
    + intros k _ d. exists i, (reloaded s). split; [done|].
      unfold sec_get. simpl. by destruct (values s !! k).
  - eapply Forall_impl; [exact Hkv|]. by intros s' [? _].
Qed.

Lemma clean_section_new n : clean_name n → clean_section (new_Section n).
Proof.
  intros Hn. split_and!; [done|constructor|]. intros k v. simpl.
  by rewrite lookup_empty.
Qed.

Lemma clean_section_set k v s :
  clean_key k → clean_value v → clean_section s → clean_section (sec_set k v s).
Proof.
  intros Hk Hv (Hn & Hks & Hvs). split_and!; [done| |].
  - unfold sec_set. simpl. destruct (negb _); [|done].
    apply Forall_app. split; [done|]. by constructor.
  - intros k' v'. rewrite sec_set_values.
    intros [[_ <-]|[_ ?]]%lookup_insert_Some; [done|]. by eapply Hvs.
Qed.

Lemma clean_key_lit k :
  bool_decide (Forall (λ c, ¬ JS.is_space c ∧ c ≠ code "=") k) = true →
  bool_decide (Forall (λ c, head k ≠ Some c) reserved_first) = true →
  clean_key k.
Proof.
  intros H1%bool_decide_eq_true H2%bool_decide_eq_true. split; [done|].
  intros c Hc Hin. by apply (proj1 (Forall_forall _ _) H2 c Hin).
Qed.

Lemma storable_section_new n : storable n → storable_section (new_Section n).
Proof.
  intros Hn. split_and!; [done|constructor|constructor|]. intros k v. simpl.
  by rewrite lookup_empty.
Qed.

Lemma storable_section_set k v s :
  storable k → storable v → storable_section s → storable_section (sec_set k v s).
Proof.
  intros Hk Hv (Hn & Hks & Hls & Hvs). split_and!; [done| |done|].
  - unfold sec_set. simpl. destruct (negb _); [|done].
    apply Forall_app. split; [done|]. by constructor.
  - intros k' v'. rewrite sec_set_values.
    intros [[_ <-]|[_ ?]]%lookup_insert_Some; [done|]. by eapply Hvs.
Qed.

Lemma storable_section_setLines ls s :
  Forall storable ls → storable_section s → storable_section (sec_setLines ls s).
Proof. intros Hls (Hn & Hks & _ & Hvs). by split_and!. Qed.

Lemma ex_clean_wf : file_wf ex_clean.
Proof.
  split.
  - apply (bool_decide_unpack _). by vm_compute.
  - unfold file_inv, ex_clean, ex_core. simpl.
    repeat (apply Forall_cons; split); [..|by apply Forall_nil];
      repeat apply sec_set_inv; apply new_Section_inv.
Qed.

Lemma ex_clean_clean : Forall clean_section (sections ex_clean).
Proof.
  unfold ex_clean, ex_core. simpl.
  repeat (apply Forall_cons; split); [..|by apply Forall_nil];
    repeat (apply clean_section_set;
            [by apply clean_key_lit; vm_compute
            |by apply (bool_decide_unpack _); vm_compute|]);
    apply clean_section_new; apply (bool_decide_unpack _); by vm_compute.
Qed.

Lemma ex_clean_storable : Forall storable_section (sections ex_clean).
Proof.
  unfold ex_clean, ex_core. simpl.
  repeat (apply Forall_cons; split); [..|by apply Forall_nil];
    repeat (apply storable_section_set;
            [by apply storable_lit; vm_compute|by apply storable_lit; vm_compute|]);
    apply storable_section_new; by apply storable_lit; vm_compute.
Qed.

Lemma save_load_roundtrip_witness : roundtrip_at ex_clean.
Proof.
  apply (save_load_roundtrip ex_clean).
  - exact ex_clean_wf.
  - repeat constructor; by vm_compute.
  - exact ex_clean_clean.
  - exact ex_clean_storable.
Defined.

(** C1 as stated fails: a value with a space in it, stored through [set], is
    read back without the space. *)
Lemma roundtrip_counterexample :
  reachable cx_file ∧ file_wf cx_file ∧ Forall kv_only (sections cx_file) ∧
  ¬ roundtrip_at cx_file.
Proof.
  split_and!.
  - apply reach_call, reach_getOrCreateSection, reach_new.
  - split.
    + apply (bool_decide_unpack _). by vm_compute.
    + apply Forall_cons. split; [|by apply Forall_nil].
      apply sec_set_inv, new_Section_inv.
  - repeat constructor; by vm_compute.
  - intros H.
    destruct (H (sec_set (lit "ISOPath0") (lit "C:/My Games") (new_Section (lit "General"))))
      as [_ Hget]; [apply list_elem_of_here|].
    destruct (Hget (lit "ISOPath0") (list_elem_of_here _ _) []) as (i & s' & Hg & Hv).
    vm_compute in Hg. injection Hg as <- <-. vm_compute in Hv. discriminate Hv.
Qed.

(** Each condition of the amended round trip is needed.  A name with a
    closing bracket is cut at it; a name with a line end is split over two
    lines of the file, neither of which is a header, so that the section is
    lost; a key that starts with [#] is read as a comment; and a key with a
    surrogate outside a pair comes back with U+FFFD in its place. *)
Example roundtrip_name_bracket :
  getKeys (lit "a]b")
    (load (reopen (save (mkIniFile [sec_set (lit "k") (lit "v") (new_Section (lit "a]b"))])).2)
          true new_IniFile).2
  = [].
Proof. by vm_compute. Qed.

Example roundtrip_name_line_end :
  reopen (save (mkIniFile [sec_set (lit "k") (lit "v")
                             (new_Section (lit "a" ++ [10%N] ++ lit "b"))])).2
  = [lit "[a"; lit "b]"; lit "k=v"; []] ∧
  sections (load (reopen (save (mkIniFile [sec_set (lit "k") (lit "v")
                                  (new_Section (lit "a" ++ [10%N] ++ lit "b"))])).2)
                 true new_IniFile).2
  = [].
Proof. by vm_compute. Qed.

Example roundtrip_key_hash :
  getKeys (lit "S")
    (load (reopen (save (mkIniFile [sec_set (lit "#k") (lit "v") (new_Section (lit "S"))])).2)
          true new_IniFile).2
  = [].
Proof. by vm_compute. Qed.

Example roundtrip_key_surrogate :
  getKeys (lit "S")
    (load (reopen (save (mkIniFile [sec_set [55357%N] (lit "v") (new_Section (lit "S"))])).2)
          true new_IniFile).2
  = [[65533%N]].
Proof. by vm_compute. Qed.

(** ** The success flag *)

(** Whatever lines the reader yields, [load] returns true; whatever the
    document, [save] returns true. *)
Lemma load_flag input keep f : (load input keep f).1 = true.
Proof. done. Qed.

Lemma save_flag f : (save f).1 = true.
Proof. done. Qed.

(** The scenario: the keys and raw lines after [load], and the output of
    [save]. *)
Example scenario_loaded :
  getKeys (lit "Core") ex_loaded = [lit "CPUThread"] ∧
  value_of ex_loaded (lit "Core") (lit "CPUThread") = Some (lit "True") ∧
  getLines (lit "Core") false ex_loaded = [lit "# comment"] ∧
  getKeys (lit "Gecko_Enabled") ex_loaded = [] ∧
  getLines (lit "Gecko_Enabled") false ex_loaded = [lit "$SomeCode"].
Proof. by vm_compute. Qed.

Example scenario_saved :
  (save ex_loaded).2
  = [lit "[Core]"; lit "CPUThread=True"; []; lit "[Gecko_Enabled]"; lit "$SomeCode"; []].
Proof. by vm_compute. Qed.

(** * Further properties of the code *)

(** ** [Section]: set, get, exists and delete together *)

(** X1.  After [set] of a key, [get] of that key returns the value set,
    whatever the default, and [exists] of it is true; [get] and [exists] of
    any other key answer as before. *)
Theorem sec_set_then_get (s : IniSection) (key value : str) :
  (∀ d, (sec_get key d (sec_set key value s)).1 = value) ∧
  (sec_exists key (sec_set key value s)).1 = true ∧
  (∀ k d, k ≠ key →
     (sec_get k d (sec_set key value s)).1 = (sec_get k d s).1 ∧
     (sec_exists k (sec_set key value s)).1 = (sec_exists k s).1).
Proof.
  unfold sec_get, sec_exists. split_and!.
  - intros d. by rewrite sec_set_values, lookup_insert_eq.
  - rewrite sec_set_values, lookup_insert_eq. by apply bool_decide_eq_true.
  - intros k d Hk. rewrite sec_set_values, lookup_insert_ne by done.
    split; [|done]. by destruct (values s !! k).
Qed.

Lemma sec_set_then_get_witness :
  (sec_get (lit "Volume") [] (sec_set (lit "CPUThread") (lit "False") ex_core)).1
  = (sec_get (lit "Volume") [] ex_core).1.
Proof.
  apply (proj2 (proj2 (sec_set_then_get ex_core (lit "CPUThread") (lit "False")))
           (lit "Volume") []).
  apply (bool_decide_unpack _). by vm_compute.
Defined.

(** X2.  Setting a key twice is setting it once to the second value: the
    first value is lost and the key is not listed twice. *)
Theorem sec_set_twice (s : IniSection) (key v1 v2 : str) :
  sec_set key v2 (sec_set key v1 s) = sec_set key v2 s.
Proof.
  destruct (values s !! key) as [w|] eqn:Hv.
  - rewrite (sec_set_has key v1 s), (sec_set_has key v2 s) by (by rewrite Hv).
    rewrite sec_set_has by (simpl; rewrite lookup_insert_eq; eauto).
    simpl. by rewrite insert_insert_eq.
  - rewrite (sec_set_new key v1 s), (sec_set_new key v2 s) by done.
    rewrite sec_set_has by (simpl; rewrite lookup_insert_eq; eauto).
    simpl. by rewrite insert_insert_eq.
Qed.

(** X3.  After [delete] of a key, whether it was present or not, [get] of
    that key returns the default, [exists] of it is false, and a second
    [delete] of it returns false and changes nothing. *)
Theorem sec_delete_then_get (s : IniSection) (key : str) :
  (∀ d, (sec_get key d (sec_delete key s).2).1 = d) ∧
  (sec_exists key (sec_delete key s).2).1 = false ∧
  sec_delete key (sec_delete key s).2 = (false, (sec_delete key s).2).
Proof.
  assert (values (sec_delete key s).2 !! key = None) as Hv.
  { unfold sec_delete. case_bool_decide as Hk; simpl.
    - apply lookup_delete_eq.
    - destruct (values s !! key) eqn:Hv; [|done]. destruct Hk. eauto. }
  split_and!.
  - intros d. unfold sec_get. by rewrite Hv.
  - unfold sec_exists. simpl. rewrite Hv. apply bool_decide_eq_false. by intros [? ?].
  - by apply sec_delete_absent.
Qed.

(** X4.  In a section that satisfies its invariant, [set] of a key that is
    absent followed by [delete] of that key gives back the section exactly:
    same key order, same values, same raw lines. *)
Theorem sec_set_then_delete (s : IniSection) (key value : str) :
  sec_inv s → values s !! key = None →
  sec_delete key (sec_set key value s) = (true, s).
Proof.
  intros Hs Hv. rewrite sec_delete_present.
  - f_equal. rewrite sec_set_new by done. simpl.
    apply IniSection_eq; simpl; [done| |done|].
    + rewrite filter_app, filter_cons_False by (intros H; by apply H).
      rewrite filter_nil, app_nil_r. apply filter_all, Forall_forall.
      intros k Hk ->. apply (sec_inv_elem s key Hs) in Hk. rewrite Hv in Hk.
      by destruct Hk.
    + by rewrite delete_insert_eq, delete_id.
  - by apply sec_set_inv.
  - rewrite sec_set_values, lookup_insert_eq. eauto.
Qed.

Lemma sec_set_then_delete_witness :
  sec_delete (lit "Volume") (sec_set (lit "Volume") (lit "100") ex_core) = (true, ex_core).
Proof.
  apply (sec_set_then_delete ex_core (lit "Volume") (lit "100") ex_core_inv).
  by vm_compute.
Defined.

(** X5.  In a section that satisfies its invariant, [exists] of a key is
    true exactly when the key is in the key order, and exactly when [get]
    does not fall back to the default for some default. *)
Theorem sec_exists_spec (s : IniSection) (key : str) :
  sec_inv s →
  ((sec_exists key s).1 = true ↔ key ∈ keysOrder s) ∧
  ((sec_exists key s).1 = false ↔ ∀ d, (sec_get key d s).1 = d) ∧
  (sec_exists key s).2 = s.
Proof.
  intros Hs. unfold sec_exists, sec_get. simpl. split_and!; [| |done].
  - rewrite bool_decide_eq_true. symmetry. by apply sec_inv_elem.
  - rewrite bool_decide_eq_false. destruct (values s !! key) as [v|] eqn:Hv; simpl.
    + split; [intros H; destruct H; eauto|].
      intros H. specialize (H (0%N :: v)). apply (f_equal length) in H. simpl in H. lia.
    + split; [done|]. intros _ [? ?]. done.
Qed.

Lemma sec_exists_spec_witness :
  (sec_exists (lit "CPUThread") ex_core).1 = true ↔ lit "CPUThread" ∈ keysOrder ex_core.
Proof. apply (sec_exists_spec ex_core (lit "CPUThread") ex_core_inv). Defined.

(** ** [IniFile]: sections by name *)

Lemma getSection_held f i s :
  NoDup (name <$> sections f) → sections f !! i = Some s →
  getSection (name s) f = Some (i, s).
Proof.
  intros Hnd Hi. apply list_find_Some. split_and!; [done..|].
  intros j y Hj Hlt Hy. assert (i = j); [|lia].
  apply (NoDup_lookup _ i j (name s) Hnd); rewrite list_lookup_fmap.
  - by rewrite Hi.
  - rewrite Hj. simpl. by rewrite Hy.
Qed.

(** X6.  [getOrCreateSection] called a second time with the same name
    returns the same section object and leaves the document as the first
    call left it.  The section it returns has the name asked for and is found
    by [getSection]; the sections that were there stay in place; a section
    is appended, empty, only when the name was missing. *)
Theorem getOrCreateSection_twice (n : str) (f : IniFile) :
  getOrCreateSection n (getOrCreateSection n f).2 = getOrCreateSection n f ∧
  (∃ s, getSection n (getOrCreateSection n f).2 = Some ((getOrCreateSection n f).1, s) ∧
        name s = n) ∧
  sections f `prefix_of` sections (getOrCreateSection n f).2 ∧
  (getSection n f = None →
   sections (getOrCreateSection n f).2 = sections f ++ [new_Section n]) ∧
  (is_Some (getSection n f) → (getOrCreateSection n f).2 = f).
Proof.
  pose proof (getOrCreateSection_cur n f) as [s Hs]. split_and!.
  - unfold getOrCreateSection at 1. rewrite Hs. by destruct (getOrCreateSection n f).
  - exists s. split; [done|]. by apply getSection_Some in Hs as [_ ?].
  - unfold getOrCreateSection. destruct (getSection n f) as [[i s0]|]; simpl; [done|].
    by apply prefix_app_r.
  - intros Hn. unfold getOrCreateSection. by rewrite Hn.
  - intros [[i s0] Hn]. unfold getOrCreateSection. by rewrite Hn.
Qed.

Lemma getOrCreateSection_twice_witness :
  sections (getOrCreateSection (lit "Core") new_IniFile).2 = [new_Section (lit "Core")] ∧
  (getOrCreateSection (lit "Core") ex_loaded).2 = ex_loaded.
Proof.
  split.
  - apply (proj1 (proj2 (proj2 (proj2 (getOrCreateSection_twice (lit "Core") new_IniFile))))).
    by vm_compute.
  - apply (proj2 (proj2 (proj2 (proj2 (getOrCreateSection_twice (lit "Core") ex_loaded))))).
    apply (bool_decide_unpack _). by vm_compute.
Defined.

(** X7.  In every document that the interface produces, no two sections
    have the same name, and every section that the document holds is the one
    that [getSection] finds under its name. *)
Theorem reachable_names_distinct (f : IniFile) :
  reachable f →
  NoDup (name <$> sections f) ∧
  ∀ i s, sections f !! i = Some s → getSection (name s) f = Some (i, s).
Proof.
  intros [Hnd _]%reachable_wf. split; [done|]. intros i s. by apply getSection_held.
Qed.

Lemma reachable_names_distinct_witness :
  NoDup (name <$> sections ex_loaded).
Proof.
  apply (reachable_names_distinct ex_loaded). apply reach_load, reach_new.
Defined.

Lemma list_find_delete_other {A} (P : A → Prop) `{∀ x, Decision (P x)} l i x :
  l !! i = Some x → ¬ P x →
  snd <$> list_find P (delete i l) = snd <$> list_find P l.
Proof.
  revert i. induction l as [|y l IH]; intros i Hi HP; [done|].
  destruct i as [|i]; simpl in *.
  - simplify_eq. rewrite decide_False by done.
    by rewrite <- option_fmap_compose.
  - destruct (decide (P y)); [done|].
    rewrite <- !option_fmap_compose. by apply IH.
Qed.

(** X8.  [deleteSection] of a name that the document does not have returns
    false and leaves the document as it is.  For a name that it has, it
    returns true and removes one section; every section of another name is
    found as before; and when the names of the document are pairwise
    distinct, [exists] of the deleted name is false afterwards. *)
Theorem deleteSection_spec (n : str) (f : IniFile) :
  (ini_exists n f = false → deleteSection n f = (false, f)) ∧
  (ini_exists n f = true →
   (deleteSection n f).1 = true ∧
   S (length (sections (deleteSection n f).2)) = length (sections f) ∧
   (∀ m, m ≠ n → section_of m (deleteSection n f).2 = section_of m f) ∧
   (NoDup (name <$> sections f) → ini_exists n (deleteSection n f).2 = false)).
Proof.
  unfold ini_exists, deleteSection. split.
  - intros Hn%bool_decide_eq_false. destruct (getSection n f) as [[i s]|]; [|done].
    destruct Hn. eauto.
  - intros [[i s] Hn]%bool_decide_eq_true. rewrite Hn. simpl.
    pose proof (getSection_Some _ _ _ _ Hn) as [Hi Hs]. split_and!.
    + done.
    + rewrite length_delete by eauto. apply lookup_lt_Some in Hi. lia.
    + intros m Hm. unfold section_of, getSection. simpl.
      apply (list_find_delete_other _ _ _ s Hi). congruence.
    + intros Hnd. apply bool_decide_eq_false. intros [[j y] Hj].
      apply getSection_Some in Hj as [Hj Hy]. simpl in Hj.
      rewrite list_lookup_delete in Hj. case_decide as Hlt.
      * assert (i = j); [|lia].
        apply (NoDup_lookup _ i j n Hnd); rewrite list_lookup_fmap.
        -- by rewrite Hi; simpl; rewrite Hs.
        -- by rewrite Hj; simpl; rewrite Hy.
      * assert (i = S j); [|lia].
        apply (NoDup_lookup _ i (S j) n Hnd); rewrite list_lookup_fmap.
        -- by rewrite Hi; simpl; rewrite Hs.
        -- by rewrite Hj; simpl; rewrite Hy.
Qed.

Lemma deleteSection_spec_witness :
  deleteSection (lit "Wii") ex_loaded = (false, ex_loaded) ∧
  ini_exists (lit "Core") (deleteSection (lit "Core") ex_loaded).2 = false.
Proof.
  split.
  - apply (proj1 (deleteSection_spec (lit "Wii") ex_loaded)). by vm_compute.
  - apply (proj2 (deleteSection_spec (lit "Core") ex_loaded)).
    + by vm_compute.
    + apply (bool_decide_unpack _). by vm_compute.
Defined.

Lemma deleteKey_alter n k f i s :
  getSection n f = Some (i, s) →
  deleteKey n k f
  = ((sec_delete k s).1,
     mkIniFile (alter (run_call (CallDelete k)) i (sections f))).
Proof.
  intros Hn. unfold deleteKey. rewrite Hn.
  apply getSection_Some in Hn as [Hi _].
  destruct (sec_delete k s) as [r s'] eqn:Hd. simpl. do 2 f_equal.
  apply list_eq. intros j. rewrite list_lookup_alter. case_decide; subst.
  - rewrite list_lookup_insert_eq by (by eapply lookup_lt_Some).
    rewrite Hi. simpl. by rewrite Hd.
  - by rewrite list_lookup_insert_ne.
Qed.

Lemma value_of_alter g i f n k c s :
  (∀ s, name (g s) = name s) → getSection c f = Some (i, s) →
  value_of (mkIniFile (alter g i (sections f))) n k
  = if decide (c = n) then values (g s) !! k else value_of f n k.
Proof.
  intros Hg Hc. unfold value_of. rewrite getSection_alter by done.
  destruct (getSection n f) as [[j s0]|] eqn:Hn; simpl.
  - destruct (decide (i = j)) as [->|Hij].
    + pose proof (getSection_same_index _ _ _ _ _ _ Hn Hc) as ->.
      rewrite decide_True by done. congruence.
    + rewrite decide_False; [done|]. intros ->. congruence.
  - rewrite decide_False; [done|]. intros ->. congruence.
Qed.

(** X9.  [deleteKey] on a section that the document does not have returns
    false and leaves the document as it is.  Otherwise it returns whether
    the key had a value in that section; afterwards the key has no value
    there, and every other key of that section and every key of every other
    section has the value it had. *)
Theorem deleteKey_spec (n key : str) (f : IniFile) :
  (getSection n f = None → deleteKey n key f = (false, f)) ∧
  (is_Some (getSection n f) →
   (deleteKey n key f).1 = bool_decide (is_Some (value_of f n key))) ∧
  value_of (deleteKey n key f).2 n key = None ∧
  (∀ m k, ¬ (m = n ∧ k = key) →
     value_of (deleteKey n key f).2 m k = value_of f m k).
Proof.
  destruct (getSection n f) as [[i s]|] eqn:Hn.
  - rewrite (deleteKey_alter _ _ _ _ _ Hn). simpl.
    assert (value_of f n key = values s !! key) as Hv.
    { unfold value_of. by rewrite Hn. }
    assert (values (run_call (CallDelete key) s) = delete key (values s)) as Hd.
    { simpl. unfold sec_delete. case_bool_decide as Hk; simpl; [done|].
      symmetry. apply delete_id. destruct (values s !! key) eqn:E; [|done].
      destruct Hk. eauto. }
    split_and!.
    + done.
    + intros _. rewrite Hv. unfold sec_delete. by case_bool_decide.
    + rewrite (value_of_alter _ _ _ _ _ n s) by (done || apply run_call_name).
      rewrite decide_True by done. rewrite Hd. apply lookup_delete_eq.
    + intros m k Hmk.
      rewrite (value_of_alter _ _ _ _ _ n s) by (done || apply run_call_name).
      case_decide as Hm; [|done]. subst m. rewrite Hd.
      rewrite lookup_delete_ne by (intros ->; by apply Hmk).
      unfold value_of. by rewrite Hn.
  - unfold deleteKey, value_of. rewrite Hn. simpl. rewrite Hn.
    split_and!; try done.
Qed.

Lemma deleteKey_spec_witness :
  deleteKey (lit "Wii") (lit "CPUThread") ex_loaded = (false, ex_loaded) ∧
  (deleteKey (lit "Core") (lit "CPUThread") ex_loaded).1 = true ∧
  value_of (deleteKey (lit "Core") (lit "Missing") ex_loaded).2 (lit "Core") (lit "CPUThread")
  = Some (lit "True").
Proof.
  split_and!.
  - apply (proj1 (deleteKey_spec (lit "Wii") (lit "CPUThread") ex_loaded)). by vm_compute.
  - rewrite (proj1 (proj2 (deleteKey_spec (lit "Core") (lit "CPUThread") ex_loaded))).
    + by vm_compute.
    + apply (bool_decide_unpack _). by vm_compute.
  - rewrite (proj2 (proj2 (proj2 (deleteKey_spec (lit "Core") (lit "Missing") ex_loaded)))).
    + by vm_compute.
    + intros [_ H]. revert H. apply (bool_decide_unpack _). by vm_compute.
Defined.

(** ** Raw lines through [setLines] and [getLines] *)

Lemma section_of_alter g i f n c s :
  (∀ s, name (g s) = name s) → getSection c f = Some (i, s) →
  section_of n (mkIniFile (alter g i (sections f)))
  = if decide (c = n) then Some (g s) else section_of n f.
Proof.
  intros Hg Hc. unfold section_of. rewrite getSection_alter by done.
  destruct (getSection n f) as [[j s0]|] eqn:Hn; simpl.
  - destruct (decide (i = j)) as [->|Hij].
    + pose proof (getSection_same_index _ _ _ _ _ _ Hn Hc) as ->.
      rewrite decide_True by done. congruence.
    + rewrite decide_False; [done|]. intros ->. congruence.
  - rewrite decide_False; [done|]. intros ->. congruence.
Qed.

Lemma getOrCreateSection_section_of m f n :
  section_of n (getOrCreateSection m f).2
  = match section_of n f with
    | Some s => Some s
    | None => if decide (m = n) then Some (new_Section m) else None
    end.
Proof.
  unfold getOrCreateSection, section_of.
  destruct (getSection m f) as [[i s]|] eqn:Hm; simpl.
  - destruct (getSection n f) as [[j s0]|] eqn:Hn; simpl; [done|].
    rewrite decide_False; [done|]. intros ->. congruence.
  - rewrite getSection_app_new by done.
    destruct (getSection n f) as [[j s0]|]; simpl; [done|]. by case_decide.
Qed.

(** The section that [setLines] leaves under each name. *)
Lemma setLines_section_of n ls f m :
  section_of m (setLines n ls f)
  = if decide (n = m)
    then Some (sec_setLines ls (default (new_Section n) (section_of n f)))
    else section_of m f.
Proof.
  unfold setLines. pose proof (getOrCreateSection_cur n f) as [s Hs].
  pose proof (getOrCreateSection_section_of n f) as Hof.
  destruct (getOrCreateSection n f) as [i f']. simpl in *.
  rewrite (section_of_alter _ _ _ _ n s) by done.
  case_decide as Hnm.
  - subst m. f_equal. f_equal. specialize (Hof n). unfold section_of in Hof at 1.
    rewrite Hs in Hof. simpl in Hof. rewrite decide_True in Hof by done.
    destruct (section_of n f); simpl; congruence.
  - rewrite Hof. destruct (section_of m f); [done|]. by rewrite decide_False.
Qed.

(** X10.  After [setLines] of a section name, [getLines] of that name
    returns the lines given, in order, without the lines that are empty or a
    lone newline; the section exists afterwards even if it did not before;
    its keys and their values are as they were; and every other section is
    as it was. *)
Theorem setLines_then_getLines (n : str) (ls : list str) (f : IniFile) :
  (∀ rc, getLines n rc (setLines n ls f) = filter (λ line, line ≠ [10%N] ∧ line ≠ []) ls) ∧
  ini_exists n (setLines n ls f) = true ∧
  getKeys n (setLines n ls f) = getKeys n f ∧
  (∀ k, value_of (setLines n ls f) n k = value_of f n k) ∧
  (∀ m, m ≠ n → section_of m (setLines n ls f) = section_of m f).
Proof.
  pose proof (setLines_section_of n ls f) as Hof.
  assert (∀ m g, (match getSection m g with Some (_, s) => Some s | None => None end)
                 = section_of m g) as Hget.
  { intros m g. unfold section_of. by destruct (getSection m g) as [[? ?]|]. }
  split_and!.
  - intros rc. unfold getLines. specialize (Hof n). rewrite decide_True in Hof by done.
    rewrite <- Hget in Hof. by destruct (getSection n (setLines n ls f)) as [[i s]|]; simplify_eq.
  - apply bool_decide_eq_true. specialize (Hof n). rewrite decide_True in Hof by done.
    unfold section_of in Hof. destruct (getSection n (setLines n ls f)); [eauto|done].
  - unfold getKeys. specialize (Hof n). rewrite decide_True in Hof by done.
    rewrite <- !Hget in Hof.
    destruct (getSection n (setLines n ls f)) as [[i s]|]; simplify_eq.
    by destruct (getSection n f) as [[j s0]|].
  - intros k. unfold value_of. specialize (Hof n). rewrite decide_True in Hof by done.
    rewrite <- !Hget in Hof.
    destruct (getSection n (setLines n ls f)) as [[i s]|]; simplify_eq.
    by destruct (getSection n f) as [[j s0]|].
  - intros m Hm. rewrite Hof. by rewrite decide_False.
Qed.

Lemma setLines_then_getLines_witness :
  section_of (lit "Core") (setLines (lit "Gecko") [lit "$A"; []; lit "*b"] ex_loaded)
  = section_of (lit "Core") ex_loaded.
Proof.
  apply (proj2 (proj2 (proj2 (proj2
           (setLines_then_getLines (lit "Gecko") [lit "$A"; []; lit "*b"] ex_loaded))))).
  apply (bool_decide_unpack _). by vm_compute.
Defined.

(** X11.  [getLines] gives the raw lines of the section in order, without
    the lines that are empty or a lone newline, and nothing else: comment
    lines stay, with the flag [remove_comments] set or not.  For a name that
    the document does not have it gives no lines. *)
Theorem getLines_spec (n : str) (f : IniFile) :
  getLines n true f = getLines n false f ∧
  (∀ rc s, section_of n f = Some s →
     getLines n rc f = filter (λ line, line ≠ [10%N] ∧ line ≠ []) (lines s)) ∧
  (∀ rc, section_of n f = None → getLines n rc f = []) ∧
  (∀ rc line, line ∈ getLines n rc f → line ≠ [] ∧ line ≠ [10%N]) ∧
  (∀ rc s line, section_of n f = Some s → line ∈ lines s →
     code "#" ∈ line → line ≠ [10%N] → line ∈ getLines n rc f).
Proof.
  unfold getLines, section_of.
  destruct (getSection n f) as [[i s]|]; simpl; split_and!; try done.
  - by intros rc s' [= <-].
  - intros rc line [[? ?] _]%list_elem_of_filter. done.
  - intros rc s' line [= <-] Hin Hc Hnl. apply list_elem_of_filter. split; [|done].
    split; [done|]. intros ->. by apply elem_of_nil in Hc.
  - intros rc line []%elem_of_nil.
Qed.

Lemma getLines_spec_witness :
  getLines (lit "Core") true ex_loaded = [lit "# comment"] ∧
  getLines (lit "Wii") false ex_loaded = [].
Proof.
  split.
  - rewrite (proj1 (proj2 (getLines_spec (lit "Core") ex_loaded)) true
               (mkSection (lit "Core") [lit "CPUThread"] [lit "# comment"]
                          {[lit "CPUThread" := lit "True"]})); by vm_compute.
  - apply (proj1 (proj2 (proj2 (getLines_spec (lit "Wii") ex_loaded)))). by vm_compute.
Defined.

(** ** The line classifier, again *)

(** X12.  Whatever the line, a key that [parseLine] returns contains no
    white space and no [=], and a value that it returns contains no white
    space and no quote character; when the line has no [=], both are
    empty. *)
Theorem parseLine_normal (line key value : str) :
  parseLine line = Some (key, value) →
  Forall (λ c, ¬ JS.is_space c ∧ c ≠ code "=") key ∧
  Forall (λ c, ¬ JS.is_space c ∧ ¬ JS.is_quote c) value ∧
  (code "=" ∉ line → key = [] ∧ value = []).
Proof.
  intros Hp.
  assert (line ≠ [] ∧ head line ≠ Some (code "#")) as [Hne Hh].
  { split; intros H; assert (parseLine line = None) as Hn
      by (apply parseLine_None; auto); congruence. }
  destruct (decide (code "=" ∈ line)) as [Hin|Hnin].
  - apply list_elem_of_split_l in Hin as (pre & post & -> & Hpre).
    rewrite parseLine_pair in Hp by done. injection Hp as <- <-. split_and!.
    + apply Forall_forall. intros c [Hc Hin]%list_elem_of_filter. split; [done|].
      intros ->. done.
    + apply Forall_forall. intros c [Hq [Hc _]%list_elem_of_filter]%list_elem_of_filter.
      done.
    + intros H. destruct H. apply elem_of_app. right. apply list_elem_of_here.
  - rewrite parseLine_no_equals in Hp by done. injection Hp as <- <-.
    split_and!; [constructor|constructor|done].
Qed.

Lemma parseLine_normal_witness :
  Forall (λ c, ¬ JS.is_space c ∧ c ≠ code "=") (lit "ab") ∧
  Forall (λ c, ¬ JS.is_space c ∧ ¬ JS.is_quote c) (lit "cd=e").
Proof.
  destruct (parseLine_normal (lit " a b = 'c d' = e") (lit "ab") (lit "cd=e")) as (H1 & H2 & _).
  - by vm_compute.
  - by split.
Defined.

(** ** [load]: lines outside sections, the byte order mark, broken headers *)

Lemma load_line_not_header f line :
  (∀ n, classify line ≠ Header n) → load_line (f, None) line = (f, None).
Proof.
  intros Hh. unfold load_line. destruct (classify line) as [n| | |k v]; try done.
  by destruct (Hh n).
Qed.

Lemma load_lines_no_header f ls :
  (∀ line n, line ∈ ls → classify line ≠ Header n) →
  foldl load_line (f, None) ls = (f, None).
Proof.
  induction ls as [|l ls IH]; intros Hls; [done|]. simpl.
  rewrite load_line_not_header.
  - apply IH. intros line n Hin. apply Hls. by apply list_elem_of_further.
  - intros n. apply Hls. apply list_elem_of_here.
Qed.

(** X13.  When no line of the input is the header of a section, [load]
    reads nothing: with [keepCurrentData] true the document is as it was,
    with [keepCurrentData] false it is empty.  So pairs, comments and raw
    lines that stand before the first header are dropped. *)
Theorem load_no_header (input : list str) (f : IniFile) :
  (∀ n, ¬ mentioned n input) →
  load input true f = (true, f) ∧ load input false f = (true, mkIniFile []).
Proof.
  intros Hm. rewrite !load_eq.
  assert (∀ line n, line ∈ source_lines input → classify line ≠ Header n) as Hls.
  { intros line n Hin Hc. apply (Hm n). by exists line. }
  by rewrite !load_lines_no_header.
Qed.

Lemma load_no_header_witness :
  load [lit "CPUThread = True"; lit "# comment"; lit "[Core"; lit "$Code"] true ex_loaded
  = (true, ex_loaded).
Proof.
  apply (load_no_header _ ex_loaded).
  intros n (line & Hin & Hh). simpl in Hin.
  repeat (apply elem_of_cons in Hin as [->|Hin]; [by vm_compute in Hh|]).
  by apply elem_of_nil in Hin.
Defined.

Lemma substr_0_3 s : JS.substr s 0 3 = take 3 s.
Proof.
  unfold JS.substr, JS.start_pos. simpl.
  replace (Z.to_nat (Z.min 0 (Z.of_nat (length s)))) with 0%nat by lia.
  by rewrite drop_0.
Qed.

Lemma strip_BOM_prefixed line : strip_BOM (BOM ++ line) = line.
Proof.
  unfold strip_BOM. rewrite substr_0_3.
  rewrite bool_decide_eq_true_2 by done.
  unfold JS.slice_from, JS.start_pos. simpl.
  replace (Z.to_nat (Z.min 3 _)) with 3%nat by lia. done.
Qed.

Lemma strip_BOM_not_prefixed line : ¬ BOM `prefix_of` line → strip_BOM line = line.
Proof.
  intros Hp. unfold strip_BOM. rewrite bool_decide_eq_false_2; [done|].
  intros Hs. apply Hp. exists (drop 3 line). rewrite <- Hs, substr_0_3.
  by rewrite take_drop.
Qed.

(** X14.  A byte order mark (the three code units EF BB BF) in front of the
    first line changes nothing: the input is read as without it.  The first
    line itself must not start with a second mark. *)
Theorem load_BOM (line : str) (rest : list str) (keep : bool) (f : IniFile) :
  ¬ BOM `prefix_of` line →
  load ((BOM ++ line) :: rest) keep f = load (line :: rest) keep f.
Proof.
  intros Hp. rewrite !load_eq. cbn [source_lines].
  by rewrite strip_BOM_prefixed, strip_BOM_not_prefixed.
Qed.

Lemma load_BOM_witness :
  load ((BOM ++ lit "[Core]") :: [lit "CPUThread = True"]) true new_IniFile
  = load (lit "[Core]" :: [lit "CPUThread = True"]) true new_IniFile.
Proof.
  apply load_BOM. intros [k Hk]. by vm_compute in Hk.
Defined.

Lemma classify_open_bracket line :
  head line = Some (code "[") → code "]" ∉ line → classify line = Ignored.
Proof.
  intros Hh Hc. unfold classify. rewrite bool_decide_eq_true_2 by done.
  rewrite indexOf_absent by done. by rewrite bool_decide_eq_false_2 by lia.
Qed.

(** X15.  A line after the first that starts with an opening bracket and has
    no closing bracket is skipped: the input is read as without it, and the
    lines after it still go to the section of the header read before. *)
Theorem load_open_bracket (first bad : str) (l1 l2 : list str) (keep : bool) (f : IniFile) :
  head bad = Some (code "[") → code "]" ∉ bad →
  load (first :: l1 ++ bad :: l2) keep f = load (first :: l1 ++ l2) keep f.
Proof.
  intros Hh Hc. rewrite !load_eq. cbn [source_lines foldl].
  rewrite !foldl_app. cbn [foldl]. do 3 f_equal.
  destruct (foldl load_line _ l1) as [f' cur].
  unfold load_line. by rewrite classify_open_bracket.
Qed.

Lemma load_open_bracket_witness :
  load (lit "[Core]" :: [lit "A = 1"] ++ lit "[Broken" :: [lit "B = 2"]) true new_IniFile
  = load (lit "[Core]" :: [lit "A = 1"] ++ [lit "B = 2"]) true new_IniFile.
Proof.
  apply load_open_bracket.
  - by vm_compute.
  - apply (bool_decide_unpack _). by vm_compute.
Defined.

Lemma classify_closed_bracket line :
  head line = Some (code "[") → code "]" ∈ line → ∃ n, classify line = Header n.
Proof.
  intros Hh Hc. unfold classify. rewrite bool_decide_eq_true_2 by done.
  rewrite bool_decide_eq_true_2 by (by apply indexOf_present). eauto.
Qed.

Lemma load_line_header f cur cur' line n :
  classify line = Header n → load_line (f, cur) line = load_line (f, cur') line.
Proof. intros Hc. unfold load_line. by rewrite Hc. Qed.

(** X16.  Reading two inputs one after the other, keeping the data, is
    reading them as one input, when the second input starts with the header
    of a section. *)
Theorem load_app (in1 : list str) (h : str) (rest : list str) (f : IniFile) :
  head h = Some (code "[") → code "]" ∈ h →
  load (in1 ++ h :: rest) true f = load (h :: rest) true (load in1 true f).2.
Proof.
  intros Hh Hc. destruct (classify_closed_bracket h Hh Hc) as [n Hn].
  assert (strip_BOM h = h) as Hb.
  { apply (strip_BOM_head _ _ Hh). apply (bool_decide_unpack _). by vm_compute. }
  rewrite !load_eq. destruct in1 as [|a in1]; cbn [source_lines app snd].
  - done.
  - rewrite Hb. cbn [foldl]. rewrite foldl_app. cbn [foldl]. do 3 f_equal.
    destruct (foldl load_line _ in1) as [f1 cur1].
    by apply (load_line_header _ _ _ _ n).
Qed.

Lemma load_app_witness :
  load ([lit "[Core]"; lit "A = 1"] ++ lit "[Gecko]" :: [lit "$Code"]) true new_IniFile
  = load (lit "[Gecko]" :: [lit "$Code"]) true
         (load [lit "[Core]"; lit "A = 1"] true new_IniFile).2.
Proof.
  apply load_app.
  - by vm_compute.
  - apply (bool_decide_unpack _). by vm_compute.
Defined.

(** ** [load], one section at a time *)

Lemma cur_ok_section_of f cur n :
  cur_ok f cur (Some n) → ∃ i s, cur = Some i ∧ getSection n f = Some (i, s).
Proof. destruct cur as [i|]; [|done]. intros [s Hs]. eauto. Qed.

Lemma load_line_section_of f cur cn line n :
  cur_ok f cur cn →
  section_of n (load_line (f, cur) line).1
  = match classify line with
    | Header m => if decide (m = n) then Some (default (new_Section n) (section_of n f))
                  else section_of n f
    | Ignored => section_of n f
    | Raw => if decide (cn = Some n) then sec_pushLine line <$> section_of n f
             else section_of n f
    | Pair key value => if decide (cn = Some n) then sec_set key value <$> section_of n f
                        else section_of n f
    end.
Proof.
  intros Hc. unfold load_line.
  assert (∀ g, (∀ s, name (g s) = name s) →
            section_of n (match cur with
                          | Some i => (mkIniFile (alter g i (sections f)), Some i)
                          | None => (f, cur)
                          end).1
            = if decide (cn = Some n) then g <$> section_of n f else section_of n f) as Halt.
  { intros g Hg. destruct cn as [c|].
    - destruct (cur_ok_section_of _ _ _ Hc) as (i & s & -> & Hs). simpl.
      rewrite (section_of_alter _ _ _ _ c s) by done.
      destruct (decide (c = n)) as [->|Hne].
      + rewrite decide_True by done. unfold section_of. by rewrite Hs.
      + rewrite decide_False; [done|]. congruence.
    - destruct cur; [done|]. by rewrite decide_False. }
  destruct (classify line) as [m| | |key value].
  - pose proof (getOrCreateSection_section_of m f n) as Hm.
    destruct (getOrCreateSection m f) as [i f']. simpl in *. rewrite Hm. clear Hm.
    destruct (section_of n f); destruct (decide (m = n)); subst; done.
  - done.
  - by apply Halt.
  - by apply Halt.
Qed.

Lemma load_lines_section_of f cur cn ls n :
  cur_ok f cur cn →
  section_of n (foldl load_line (f, cur) ls).1 = section_view cn ls n (section_of n f).
Proof.
  revert f cur cn. induction ls as [|l ls IH]; intros f cur cn Hc; [done|].
  cbn [foldl section_view]. pose proof (load_line_cur f cur cn l Hc) as Hc'.
  pose proof (load_line_section_of f cur cn l n Hc) as Hs.
  destruct (load_line (f, cur) l) as [f' cur']. simpl in Hc', Hs.
  rewrite (IH f' cur' _ Hc'), Hs. unfold next_name.
  by destruct (classify l).
Qed.

(** ** [load]: the order of the sections *)

Lemma getSection_is_Some n f : is_Some (getSection n f) ↔ n ∈ name <$> sections f.
Proof.
  split.
  - intros [[i s] [Hi Hs]%getSection_Some]. apply list_elem_of_fmap. exists s.
    split; [done|]. by eapply list_elem_of_lookup_2.
  - intros [s [-> Hs]]%list_elem_of_fmap.
    destruct (getSection (name s) f) eqn:Hn; [eauto|].
    apply getSection_None in Hn. by destruct (proj1 (Forall_forall _ _) Hn s Hs).
Qed.

Lemma getOrCreateSection_add_name m f :
  name <$> sections (getOrCreateSection m f).2 = add_name (name <$> sections f) m.
Proof.
  unfold getOrCreateSection, add_name.
  pose proof (getSection_is_Some m f) as Hm.
  destruct (getSection m f) as [[i s]|]; simpl.
  - rewrite decide_True; [done|]. apply Hm. eauto.
  - rewrite decide_False; [by rewrite fmap_app|]. intros H. apply Hm in H. by destruct H.
Qed.

Lemma load_lines_names_eq f cur ls :
  name <$> sections (foldl load_line (f, cur) ls).1
  = foldl add_name (name <$> sections f) (header_names ls).
Proof.
  revert f cur. induction ls as [|l ls IH]; intros f cur; [done|].
  cbn [foldl]. unfold header_names. cbn [omap list_omap].
  unfold load_line at 2. destruct (classify l) as [m| | |k v].
  - pose proof (getOrCreateSection_add_name m f) as Hm.
    destruct (getOrCreateSection m f) as [i f']. simpl in Hm. cbn [foldl].
    rewrite <- Hm. apply IH.
  - apply IH.
  - destruct cur as [i|]; [|apply IH]. rewrite IH. simpl. by rewrite names_alter.
  - destruct cur as [i|]; [|apply IH]. rewrite IH. simpl. by rewrite names_alter.
Qed.

(** X18.  The sections of a document stand in the order in which their
    names were first used: after [load] the section names are the names
    before, followed by the names of the headers of the input that were not
    there yet, each once, in the order of their first header. *)
Theorem load_section_order (input : list str) (f : IniFile) :
  name <$> sections (load input true f).2
  = foldl add_name (name <$> sections f) (header_names (source_lines input)) ∧
  name <$> sections (load input false f).2
  = foldl add_name [] (header_names (source_lines input)).
Proof.
  rewrite !load_eq. cbn [snd]. by rewrite !load_lines_names_eq.
Qed.

Lemma foldl_add_name_known names hs :
  (∀ h, h ∈ hs → h ∈ names) → foldl add_name names hs = names.
Proof.
  induction hs as [|h hs IH]; intros Hhs; [done|]. simpl.
  unfold add_name at 2. rewrite decide_True by (apply Hhs, list_elem_of_here).
  apply IH. intros h' Hh'. by apply Hhs, list_elem_of_further.
Qed.

Lemma foldl_add_name_mono names hs x : x ∈ names → x ∈ foldl add_name names hs.
Proof.
  revert names. induction hs as [|h hs IH]; intros names Hx; [done|]. simpl.
  apply IH. unfold add_name. case_decide; [done|]. apply elem_of_app. by left.
Qed.

Lemma foldl_add_name_elem names hs h : h ∈ hs → h ∈ foldl add_name names hs.
Proof.
  revert names. induction hs as [|h0 hs IH]; intros names Hh; [by apply elem_of_nil in Hh|].
  simpl. apply elem_of_cons in Hh as [->|Hh]; [|by apply IH].
  apply foldl_add_name_mono. unfold add_name. case_decide; [done|].
  apply elem_of_app. right. apply list_elem_of_here.
Qed.

(** ** [load] of the same input twice *)

Lemma value_of_section_of f n k : value_of f n k = section_of n f ≫= λ s, values s !! k.
Proof. unfold value_of, section_of. by destruct (getSection n f) as [[? ?]|]. Qed.

(** What the lines do to a section that is there. *)
Lemma section_view_Some cn ls n t :
  ∃ t', section_view cn ls n (Some t) = Some t' ∧
        name t' = name t ∧
        lines t' = lines t ++ raw_lines_for cn ls n ∧
        ((∀ k, is_Some (assigned cn ls n k) → is_Some (values t !! k)) →
         keysOrder t' = keysOrder t ∧
         ∀ k, values t' !! k = match assigned cn ls n k with
                               | Some v => Some v
                               | None => values t !! k
                               end).
Proof.
  revert cn t. induction ls as [|l ls IH]; intros cn t.
  - exists t. split_and!; [done|done|by rewrite app_nil_r|done].
  - cbn [section_view raw_lines_for assigned].
    destruct (classify l) as [m| | |key value].
    + assert ((if decide (m = n) then Some (default (new_Section n) (Some t)) else Some t)
              = Some t) as -> by (by case_decide).
      apply IH.
    + apply IH.
    + case_decide as Hcn.
      * destruct (IH cn (sec_pushLine l t)) as (t' & Hv & Hn & Hl & Hk).
        exists t'. split_and!; [done|done| |done].
        rewrite Hl. simpl. by rewrite <- app_assoc.
      * apply IH.
    + case_decide as Hcn.
      * destruct (IH cn (sec_set key value t)) as (t' & Hv & Hn & Hl & Hk).
        exists t'. split_and!; [done|done|done|]. intros Hdom.
        assert (is_Some (values t !! key)) as Hkey.
        { apply Hdom. destruct (assigned cn ls n key); [eauto|].
          rewrite bool_decide_eq_true_2 by done. eauto. }
        destruct Hk as [Hko Hvals].
        { intros k Hs. rewrite sec_set_values. destruct (decide (key = k)) as [->|Hne].
          - rewrite lookup_insert_eq. eauto.
          - rewrite lookup_insert_ne by done. apply Hdom.
            destruct (assigned cn ls n k); [eauto|by destruct Hs]. }
        split.
        -- rewrite Hko. by rewrite sec_set_has.
        -- intros k. rewrite Hvals, sec_set_values.
           destruct (assigned cn ls n k); [done|].
           case_bool_decide as Hb.
           ++ destruct Hb as [_ ->]. apply lookup_insert_eq.
           ++ apply lookup_insert_ne. intros ->. by apply Hb.
      * destruct (IH cn t) as (t' & Hv & Hn & Hl & Hk).
        exists t'. split_and!; [done..|]. intros Hdom.
        destruct Hk as [Hko Hvals].
        { intros k Hs. apply Hdom. destruct (assigned cn ls n k); [eauto|by destruct Hs]. }
        split; [done|]. intros k. rewrite Hvals.
        destruct (assigned cn ls n k); [done|].
        rewrite bool_decide_eq_false_2; [done|]. by intros [? _].
Qed.

(** A second reading of the same lines into a document held by value: the
    names, keys and values stay, the raw lines of the input come again. *)
Lemma load_again (input : list str) (f : IniFile) :
  name <$> sections (load input true (load input true f).2).2
  = name <$> sections (load input true f).2 ∧
  ∀ n s, section_of n (load input true f).2 = Some s →
    section_of n (load input true (load input true f).2).2
    = Some (mkSection (name s) (keysOrder s)
                      (lines s ++ raw_lines_for None (source_lines input) n)
                      (values s)).
Proof.
  split.
  - rewrite (load_eq input true (load input true f).2). cbn [snd].
    rewrite load_lines_names_eq. apply foldl_add_name_known.
    intros h Hh. rewrite load_eq. cbn [snd]. rewrite load_lines_names_eq.
    by apply foldl_add_name_elem.
  - intros n s Hs.
    rewrite (load_eq input true (load input true f).2). cbn [snd].
    rewrite (load_lines_section_of _ None None) by done. rewrite Hs.
    destruct (section_view_Some None (source_lines input) n s)
      as (t' & -> & Hn & Hl & Hk).
    assert (∀ k v, assigned None (source_lines input) n k = Some v →
                   values s !! k = Some v) as Hone.
    { intros k v Ha. pose proof (load_lines_value f None None (source_lines input) n k I) as Hv.
      rewrite Ha, value_of_section_of in Hv.
      rewrite load_eq in Hs. cbn [snd] in Hs. simpl in Hv. rewrite Hs in Hv. done. }
    destruct Hk as [Hko Hvals].
    { intros k [v Ha]. rewrite (Hone k v Ha). eauto. }
    f_equal. apply IniSection_eq; simpl; [done..|].
    apply map_eq. intros k. rewrite Hvals.
    destruct (assigned None (source_lines input) n k) as [v|] eqn:Ha; [|done].
    symmetry. by apply Hone.
Qed.

(** ** [load]: a line without [=] *)

Lemma classify_no_equals line :
  line ≠ [] → code "=" ∉ line → (∀ c, head line = Some c → c ∉ reserved_first) →
  classify line = Pair [] [].
Proof.
  intros Hne Heq Hh.
  assert (∀ c, c ∈ reserved_first → head line ≠ Some c) as Hno.
  { intros c Hc Hhead. by apply (Hh c Hhead). }
  unfold classify.
  rewrite bool_decide_eq_false_2 by (apply Hno; apply (bool_decide_unpack _); by vm_compute).
  rewrite parseLine_no_equals; [|done..|].
  - replace (existsb _ raw_prefixes) with false; [by rewrite andb_false_r|].
    symmetry. apply not_true_is_false. intros (c & Hin & Hc)%existsb_exists.
    apply bool_decide_eq_true in Hc. apply list_elem_of_In in Hin.
    apply (Hno c); [|done]. revert Hin. unfold raw_prefixes, reserved_first.
    rewrite !elem_of_cons. tauto.
  - apply Hno. apply (bool_decide_unpack _). by vm_compute.
Qed.

Lemma classify_not_bracket line :
  head line ≠ Some (code "[") → ∀ m, classify line ≠ Header m.
Proof.
  intros Hh m. unfold classify. rewrite bool_decide_eq_false_2 by done.
  destruct (parseLine line) as [[k v]|]; [|done]. by destruct (_ && _).
Qed.

Lemma assigned_app_Some cn pre rest n k :
  is_Some (assigned (foldl next_name cn pre) rest n k) →
  is_Some (assigned cn (pre ++ rest) n k).
Proof.
  revert cn. induction pre as [|l pre IH]; intros cn Hs; [done|].
  cbn [foldl] in Hs. apply IH in Hs. cbn [app assigned].
  unfold next_name in Hs. destruct (classify l) as [m| | |key value]; try done.
  destruct (assigned cn (pre ++ rest) n k); [eauto|by destruct Hs].
Qed.

Lemma foldl_next_name_keep cn ls :
  (∀ l, l ∈ ls → head l ≠ Some (code "[")) → foldl next_name cn ls = cn.
Proof.
  induction ls as [|l ls IH]; intros Hls; [done|]. cbn [foldl].
  assert (next_name cn l = cn) as ->.
  { unfold next_name. pose proof (classify_not_bracket l (Hls l (list_elem_of_here _ _))).
    destruct (classify l); [by destruct (H n)|done..]. }
  apply IH. intros l' Hl'. by apply Hls, list_elem_of_further.
Qed.

(** X20.  A line under the header of a section that is not empty, has no
    [=] and does not start with an opening bracket, [#], [$], [+] or [*] is
    read as a pair with the empty key: after [load] that section has the
    empty string among its keys.  (So [save] writes the keys of that
    section and none of its raw lines.) *)
Theorem load_line_without_equals
    (input pre mid post : list str) (n junk line : str) (keep : bool) (f : IniFile) :
  source_lines input = pre ++ ([code "["] ++ n ++ [code "]"] ++ junk) :: mid ++ line :: post →
  code "]" ∉ n →
  (∀ l, l ∈ mid → head l ≠ Some (code "[")) →
  line ≠ [] → code "=" ∉ line → (∀ c, head line = Some c → c ∉ reserved_first) →
  file_inv f →
  [] ∈ getKeys n (load input keep f).2 ∧ ini_exists n (load input keep f).2 = true.
Proof.
  intros Hsrc Hn Hmid Hne Heq Hh Hf.
  assert (is_Some (assigned None (source_lines input) n [])) as [v Hv].
  { rewrite Hsrc. apply assigned_app_Some. cbn [assigned].
    rewrite classify_header by done. apply assigned_app_Some.
    rewrite foldl_next_name_keep by done. cbn [assigned].
    rewrite classify_no_equals by done.
    destruct (assigned (Some n) post n []); [eauto|].
    rewrite bool_decide_eq_true_2 by done. eauto. }
  pose proof (load_inv input keep f Hf) as Hinv.
  rewrite load_eq in *. cbn [snd] in *.
  pose proof (load_lines_value (if keep then f else mkIniFile []) None None
                (source_lines input) n [] I) as Hval.
  rewrite Hv in Hval. unfold value_of in Hval. unfold getKeys, ini_exists.
  destruct (getSection n _) as [[i s]|] eqn:Hg; [|done]. simpl in Hval.
  split; [|apply bool_decide_eq_true; eauto].
  apply getSection_Some in Hg as [Hi _].
  apply (sec_inv_elem s []); [|eauto].
  by apply (proj1 (Forall_lookup _ _) Hinv i s).
Qed.

Lemma load_line_without_equals_witness :
  [] ∈ getKeys (lit "Gecko") (load [lit "[Gecko]"; lit "$Code A"; lit "04000000 60000000"]
                                   true new_IniFile).2.
Proof.
  apply (load_line_without_equals _ [] [lit "$Code A"] [] (lit "Gecko") []
           (lit "04000000 60000000") true new_IniFile).
  - by vm_compute.
  - apply (bool_decide_unpack _). by vm_compute.
  - intros l Hl. apply list_elem_of_singleton in Hl as ->. by vm_compute.
  - by vm_compute.
  - apply (bool_decide_unpack _). by vm_compute.
  - intros c [= <-]. apply (bool_decide_unpack _). by vm_compute.
  - constructor.
Defined.

(** ** Reading back sections of raw lines *)

Lemma classify_raw_text line : raw_text line → classify line = Raw.
Proof.
  intros [->|(c & Hh & Hc)]; [apply classify_blank|].
  apply elem_of_cons in Hc as [->|Hc].
  - unfold classify. rewrite bool_decide_eq_false_2.
    + assert (parseLine line = None) as -> by (apply parseLine_None; by right). done.
    + rewrite Hh. by intros [=].
  - apply classify_raw_prefixed. by exists c.
Qed.

Lemma foldl_pushLine t ls :
  foldl (λ t l, sec_pushLine l t) t ls
  = mkSection (name t) (keysOrder t) (lines t ++ ls) (values t).
Proof.
  revert t. induction ls as [|l ls IH]; intros t; simpl.
  - rewrite app_nil_r. by destruct t.
  - rewrite IH. simpl. by rewrite <- app_assoc.
Qed.

Lemma load_raw_text_lines F0 t ls :
  Forall raw_text ls →
  foldl load_line (mkIniFile (F0 ++ [t]), Some (length F0)) ls
  = (mkIniFile (F0 ++ [foldl (λ t l, sec_pushLine l t) t ls]), Some (length F0)).
Proof.
  intros Hls. revert t. induction Hls as [|l ls Hl Hls IH]; intros t; [done|].
  cbn [foldl]. unfold load_line at 2. rewrite classify_raw_text by done.
  simpl. rewrite alter_last. apply IH.
Qed.

Lemma sec_inv_no_keys s : sec_inv s → keysOrder s = [] → values s = ∅.
Proof.
  intros [_ Hd] Hk. rewrite Hk in Hd. simpl in Hd. by apply dom_empty_iff_L.
Qed.

(** The text of one readable section, read into a document without that
    name. *)
Lemma load_section_text_gen s F cur :
  sec_inv s → readable s → getSection (name s) F = None →
  foldl load_line (F, cur) (save_section [] s)
  = (mkIniFile (sections F ++ [reread s]), Some (length (sections F))).
Proof.
  intros Hs [Hn Hr] HF. unfold reread. destruct (decide (keysOrder s = [])) as [Hk|Hk].
  - rewrite save_section_eq, decide_True by done.
    rewrite app_nil_l. cbn [foldl].
    assert (load_line (F, cur) (header_text s)
            = (mkIniFile (sections F ++ [new_Section (name s)]), Some (length (sections F))))
      as ->.
    { unfold load_line, header_text.
      change ([code "["] ++ name s ++ [code "]"])
        with ([code "["] ++ name s ++ [code "]"] ++ []).
      rewrite classify_header by done. unfold getOrCreateSection. by rewrite HF. }
    rewrite load_raw_text_lines.
    + rewrite foldl_pushLine. simpl. by rewrite Hk, (sec_inv_no_keys s).
    + apply Forall_app. split; [done|]. constructor; [by left|constructor].
  - destruct Hr as [Hks Hvs]. by apply load_section_text.
Qed.

Lemma getSection_fmap_None (g : IniSection → IniSection) n l :
  (∀ s, name (g s) = name s) → n ∉ name <$> l →
  getSection n (mkIniFile (g <$> l)) = None.
Proof.
  intros Hg Hn. apply getSection_None. simpl. apply Forall_fmap, Forall_forall.
  intros s Hs. simpl. rewrite Hg. intros <-. apply Hn. by apply list_elem_of_fmap_2.
Qed.

Lemma load_sections_gen done_ rest cur :
  NoDup (name <$> (done_ ++ rest)) →
  Forall sec_inv rest → Forall readable rest →
  (foldl load_line (mkIniFile (reread <$> done_), cur) (rest ≫= save_section [])).1
  = mkIniFile (reread <$> (done_ ++ rest)).
Proof.
  revert done_ cur. induction rest as [|s rest IH]; intros done_ cur Hnd Hinv Hrd.
  - by rewrite app_nil_r.
  - rewrite bind_cons, foldl_app.
    apply Forall_cons in Hinv as [Hs Hinv]. apply Forall_cons in Hrd as [Hr Hrd].
    rewrite load_section_text_gen; [|done..|].
    + simpl sections.
      replace (reread <$> done_ ++ s :: rest) with (reread <$> (done_ ++ [s]) ++ rest)
        by (by rewrite <- app_assoc).
      replace ((reread <$> done_) ++ [reread s]) with (reread <$> (done_ ++ [s]))
        by (by rewrite fmap_app).
      apply IH; [|done..]. by rewrite <- app_assoc.
    + apply getSection_fmap_None; [done|]. rewrite fmap_app, fmap_cons in Hnd.
      apply NoDup_app in Hnd as (_ & Hdisj & _). intros Hin.
      apply (Hdisj _ Hin). apply list_elem_of_here.
Qed.

Lemma load_save_gen keep f :
  file_wf f → Forall readable (sections f) →
  load (save f).2 keep new_IniFile = (true, mkIniFile (reread <$> sections f)).
Proof.
  intros [Hnd Hinv] Hrd. rewrite load_eq, source_lines_save, save_eq. simpl.
  f_equal. assert ((if keep then new_IniFile else mkIniFile []) = mkIniFile (reread <$> []))
    as -> by (by destruct keep).
  by rewrite load_sections_gen.
Qed.

Lemma getSection_fmap_held (g : IniSection → IniSection) f i s :
  (∀ s, name (g s) = name s) →
  NoDup (name <$> sections f) → sections f !! i = Some s →
  getSection (name s) (mkIniFile (g <$> sections f)) = Some (i, g s).
Proof.
  intros Hg Hnd Hi. rewrite <- (Hg s). apply getSection_held; simpl.
  - rewrite <- list_fmap_compose. erewrite list_fmap_ext; [exact Hnd|].
    intros ? x _. simpl. apply Hg.
  - by rewrite list_lookup_fmap, Hi.
Qed.

(** X21.  Take a document with pairwise distinct section names whose
    sections satisfy their invariant, are storable and are readable: every
    name, key, raw line and value is well-formed UTF-16 text without a line
    end; no name has a closing bracket; a section without keys has only raw
    lines that are empty or start with [#], [$], [+] or [*]; a section with
    keys has keys and values that the reader gives back as they are.  Then
    reading the file that [save] wrote into a new document gives the same
    sections in the same order with the same keys and values; a section
    without keys comes back with its raw lines and one more empty line, so
    [getLines] gives the same lines for it; a section with keys comes back
    with the empty line as its only raw line. *)
Theorem save_load_raw (keep : bool) (f : IniFile) :
  file_wf f → Forall readable (sections f) → Forall storable_section (sections f) →
  load (reopen (save f).2) keep new_IniFile = (true, mkIniFile (reread <$> sections f)) ∧
  (∀ s, s ∈ sections f →
     getKeys (name s) (load (reopen (save f).2) keep new_IniFile).2 = keysOrder s ∧
     (∀ k, value_of (load (reopen (save f).2) keep new_IniFile).2 (name s) k
           = values s !! k) ∧
     (keysOrder s = [] →
      ∀ rc, getLines (name s) rc (load (reopen (save f).2) keep new_IniFile).2
            = getLines (name s) rc f)).
Proof.
  intros Hwf Hrd Hst. rewrite reopen_save by done.
  rewrite load_save_gen by done. split; [done|].
  intros s [i Hi]%list_elem_of_lookup. cbn [snd].
  pose proof (getSection_fmap_held reread f i s (λ _, eq_refl) (proj1 Hwf) Hi) as Hg.
  pose proof (getSection_held f i s (proj1 Hwf) Hi) as Hg0.
  unfold getKeys, value_of, getLines. rewrite Hg, Hg0. simpl. split_and!; [done..|].
  intros Hk rc. rewrite decide_True by done.
  rewrite filter_app. rewrite filter_cons_False by (intros [_ H]; by apply H).
  by rewrite filter_nil, app_nil_r.
Qed.

Lemma ex_readable_wf : file_wf ex_readable.
Proof.
  split.
  - apply (bool_decide_unpack _). by vm_compute.
  - unfold file_inv, ex_readable. simpl.
    repeat (apply Forall_cons; split); [..|by apply Forall_nil].
    + apply ex_core_inv.
    + apply sec_setLines_inv, new_Section_inv.
Qed.

Lemma ex_readable_readable : Forall readable (sections ex_readable).
Proof.
  unfold ex_readable. simpl.
  repeat (apply Forall_cons; split); [..|by apply Forall_nil].
  - split; [apply (bool_decide_unpack _); by vm_compute|].
    rewrite decide_False by (by vm_compute).
    apply (clean_section_set (lit "CPUThread") (lit "True") (new_Section (lit "Core"))).
    + by apply clean_key_lit; vm_compute.
    + apply (bool_decide_unpack _). by vm_compute.
    + apply clean_section_new. apply (bool_decide_unpack _). by vm_compute.
  - split; [apply (bool_decide_unpack _); by vm_compute|].
    rewrite decide_True by done. simpl.
    repeat (apply Forall_cons; split); [..|by apply Forall_nil];
      right; eexists; (split; [reflexivity|]);
      apply (bool_decide_unpack _); by vm_compute.
Qed.

Lemma ex_readable_storable : Forall storable_section (sections ex_readable).
Proof.
  unfold ex_readable, ex_core. simpl.
  repeat (apply Forall_cons; split); [..|by apply Forall_nil].
  - apply storable_section_set; [by apply storable_lit; vm_compute..|].
    apply storable_section_new. by apply storable_lit; vm_compute.
  - apply storable_section_setLines.
    + repeat (apply Forall_cons; split); [..|by apply Forall_nil];
        by apply storable_lit; vm_compute.
    + apply storable_section_new. by apply storable_lit; vm_compute.
Qed.

Lemma save_load_raw_witness :
  load (reopen (save ex_readable).2) true new_IniFile
  = (true, mkIniFile (reread <$> sections ex_readable)).
Proof.
  apply (save_load_raw true ex_readable).
  - exact ex_readable_wf.
  - exact ex_readable_readable.
  - exact ex_readable_storable.
Defined.

(** X22.  For such a document, writing what was read back from the file
    gives the first output with one more empty line after every section
    without keys: each cycle of [save] and [load] makes the text of a
    section of raw lines one empty line longer, and leaves the text of a
    section with keys as it is. *)
Theorem save_load_save (keep : bool) (f : IniFile) :
  file_wf f → Forall readable (sections f) → Forall storable_section (sections f) →
  (save (load (reopen (save f).2) keep new_IniFile).2).2
  = sections f ≫= (λ s, save_section [] s
                         ++ if decide (keysOrder s = []) then [[]] else []).
Proof.
  intros Hwf Hrd Hst. rewrite reopen_save by done.
  rewrite load_save_gen by done. cbn [snd]. rewrite save_eq. cbn [snd sections].
  clear Hwf Hrd Hst. induction (sections f) as [|s secs IH]; [done|].
  rewrite fmap_cons, !bind_cons, IH. f_equal.
  rewrite !(save_section_eq []). unfold reread, header_text, pair_text. simpl.
  destruct (decide (keysOrder s = [])).
  - by rewrite <- !app_assoc.
  - by rewrite app_nil_r.
Qed.

Lemma save_load_save_witness :
  (save (load (reopen (save ex_readable).2) true new_IniFile).2).2
  = [lit "[Core]"; lit "CPUThread=True"; [];
     lit "[Gecko]"; lit "$Code A"; lit "*a note"; lit "# note"; []; []].
Proof.
  rewrite (save_load_save true ex_readable ex_readable_wf ex_readable_readable
             ex_readable_storable).
  by vm_compute.
Defined.

(** A raw line with a line end in it does not come back as a raw line: its
    second part is read as a line of its own, here as a pair. *)
Example raw_line_with_line_end :
  reopen (save (mkIniFile [sec_setLines [lit "$Code A" ++ [10%N] ++ lit "Name=1"]
                             (new_Section (lit "Gecko"))])).2
  = [lit "[Gecko]"; lit "$Code A"; lit "Name=1"; []] ∧
  getKeys (lit "Gecko")
    (load (reopen (save (mkIniFile [sec_setLines [lit "$Code A" ++ [10%N] ++ lit "Name=1"]
                                      (new_Section (lit "Gecko"))])).2)
          true new_IniFile).2
  = [lit "Name"].
Proof. by vm_compute. Qed.

(** ** Names that the document does not have *)

(** X23.  [exists] of a section name is true exactly when the document
    holds a section of that name; for a name that it does not hold,
    [getKeys] and [getLines] give nothing and [get-or-create] appends the
    section, so that [exists] is true afterwards. *)
Theorem ini_exists_spec (n : str) (f : IniFile) :
  (ini_exists n f = true ↔ ∃ s, s ∈ sections f ∧ name s = n) ∧
  (ini_exists n f = false →
   getKeys n f = [] ∧ (∀ rc, getLines n rc f = []) ∧
   length (sections (getOrCreateSection n f).2) = S (length (sections f))) ∧
  ini_exists n (getOrCreateSection n f).2 = true.
Proof.
  unfold ini_exists. split_and!.
  - rewrite bool_decide_eq_true, getSection_is_Some, list_elem_of_fmap.
    split; intros (s & ? & ?); by exists s.
  - intros Hn%bool_decide_eq_false. unfold getKeys, getLines, getOrCreateSection.
    destruct (getSection n f) as [[i s]|]; [destruct Hn; eauto|]. simpl.
    split_and!; [done..|]. rewrite length_app. simpl. lia.
  - apply bool_decide_eq_true. destruct (getOrCreateSection_cur n f) as [s Hs]. eauto.
Qed.

Lemma ini_exists_spec_witness :
  getKeys (lit "Wii") ex_loaded = [] ∧
  length (sections (getOrCreateSection (lit "Wii") ex_loaded).2) = 3%nat.
Proof.
  destruct (proj1 (proj2 (ini_exists_spec (lit "Wii") ex_loaded))) as (H1 & _ & H3).
  - by vm_compute.
  - split; [exact H1|]. rewrite H3. by vm_compute.
Defined.

(** ** [load]: the order of the keys *)

Lemma sec_set_add_name key v t :
  sec_inv t → keysOrder (sec_set key v t) = add_name (keysOrder t) key.
Proof.
  intros Ht. pose proof (sec_inv_elem t key Ht) as Hk. unfold add_name.
  destruct (values t !! key) as [w|] eqn:Hv.
  - rewrite sec_set_has by (by rewrite Hv). rewrite decide_True; [done|]. apply Hk. eauto.
  - rewrite sec_set_new by done. rewrite decide_False; [done|].
    intros Hin. apply Hk in Hin. by destruct Hin.
Qed.

Lemma section_view_keys_Some cn ls n t :
  sec_inv t →
  ∃ t', section_view cn ls n (Some t) = Some t' ∧
        keysOrder t' = foldl add_name (keysOrder t) (pair_keys_for cn ls n).
Proof.
  revert cn t. induction ls as [|l ls IH]; intros cn t Ht; [by exists t|].
  cbn [section_view pair_keys_for]. destruct (classify l) as [m| | |key value].
  - assert ((if decide (m = n) then Some (default (new_Section n) (Some t)) else Some t)
            = Some t) as -> by (by case_decide).
    by apply IH.
  - by apply IH.
  - case_decide; [|by apply IH].
    destruct (IH cn (sec_pushLine l t)) as (t' & Hv & Hk); [by apply sec_pushLine_inv|].
    by exists t'.
  - case_decide; [|by apply IH].
    destruct (IH cn (sec_set key value t)) as (t' & Hv & Hk); [by apply sec_set_inv|].
    exists t'. split; [done|]. rewrite Hk. cbn [app foldl].
    by rewrite sec_set_add_name.
Qed.

Lemma section_view_keys_None cn ls n t' :
  cn ≠ Some n → section_view cn ls n None = Some t' →
  keysOrder t' = foldl add_name [] (pair_keys_for cn ls n).
Proof.
  revert cn. induction ls as [|l ls IH]; intros cn Hcn Hv; [done|].
  cbn [section_view pair_keys_for] in *. destruct (classify l) as [m| | |key value].
  - destruct (decide (m = n)) as [->|Hm].
    + simpl in Hv.
      destruct (section_view_keys_Some (Some n) ls n (new_Section n) (new_Section_inv n))
        as (t'' & Hv' & Hk). simpl in Hk. congruence.
    + apply IH; [congruence|done].
  - by apply IH.
  - rewrite decide_False in Hv by done. by apply IH.
  - rewrite decide_False in Hv by done. rewrite decide_False by done. by apply IH.
Qed.



(** * The raw lines as shared arrays *)

(** ** The loop of [load] on the store *)

Lemma sh_load_step_eq st line0 :
  sh_load_step st line0
  = let line := if sl_first st then strip_BOM line0 else line0 in
    let fc := sh_load_line (sl_file st, sl_current st) line in
    mkShLoadState fc.1 fc.2 false.
Proof.
  unfold sh_load_step, sh_load_line, classify, strip_BOM.
  destruct (sl_first st); simpl;
    repeat (case_bool_decide || case_match || simplify_eq/= || done).
Qed.

Lemma sh_load_steps_eq f cur ls :
  foldl sh_load_step (mkShLoadState f cur false) ls
  = let fc := foldl sh_load_line (f, cur) ls in mkShLoadState fc.1 fc.2 false.
Proof.
  revert f cur. induction ls as [|l ls IH]; intros f cur; [done|].
  simpl foldl. rewrite sh_load_step_eq. simpl.
  destruct (sh_load_line (f, cur) l) as [f' cur']. apply IH.
Qed.

Lemma sh_load_eq input keep f :
  sh_load input keep f
  = (true, (foldl sh_load_line (if keep then f else mkShFile [] (sh_arrays f), None)
                  (source_lines input)).1).
Proof.
  unfold sh_load, sh_load_init. destruct input as [|l ls]; [done|].
  simpl foldl. rewrite sh_load_step_eq. simpl.
  destruct (sh_load_line _ (strip_BOM l)) as [f' cur']. by rewrite sh_load_steps_eq.
Qed.

(** ** Names, keys and values do not depend on the arrays *)

Lemma list_find_name {A} (h : A → IniSection) (nm : A → str) n (l : list A) :
  (∀ x, name (h x) = nm x) →
  list_find (λ x, name x = n) (h <$> l) = prod_map id h <$> list_find (λ x, nm x = n) l.
Proof.
  intros Hh. induction l as [|x l IH]; [done|]. cbn [fmap list_fmap list_find].
  rewrite Hh. case_decide; [done|]. fold (fmap h l). rewrite IH.
  by destruct (list_find _ l) as [[? ?]|].
Qed.

Lemma getSection_strip n g :
  getSection n (strip g) = prod_map id strip_section <$> getSection n g.
Proof. unfold getSection, strip. simpl. by apply list_find_name. Qed.

Lemma getSection_snapshot n f :
  getSection n (snapshot f)
  = prod_map id (snapshot_section (sh_arrays f)) <$> sh_getSection n f.
Proof. unfold getSection, snapshot, sh_getSection. simpl. by apply list_find_name. Qed.

Lemma same_keys_find n f g :
  same_keys f g →
  prod_map id bare <$> sh_getSection n f = prod_map id strip_section <$> getSection n g.
Proof.
  intros HR. unfold sh_getSection, getSection.
  rewrite <- (list_find_name bare sh_name n) by done.
  rewrite <- (list_find_name strip_section name n) by done. by rewrite HR.
Qed.

Lemma same_keys_length f g : same_keys f g → length (sh_sections f) = length (sections g).
Proof. intros HR. apply (f_equal length) in HR. by rewrite !length_fmap in HR. Qed.

Lemma same_keys_snapshot f : same_keys f (snapshot f).
Proof.
  unfold same_keys, snapshot. simpl. rewrite <- list_fmap_compose.
  by apply list_fmap_ext.
Qed.

Lemma fmap_alter_same {A B} (h : A → B) (g : A → A) i (l : list A) :
  (∀ x, h (g x) = h x) → h <$> alter g i l = h <$> l.
Proof.
  intros Hg. rewrite (list_fmap_alter h g id).
  - by apply list_alter_id.
  - apply Forall_forall. intros x _. apply Hg.
Qed.

Lemma fmap_alter_comm {A B} (h : A → B) (g : A → A) (g' : B → B) i (l : list A) :
  (∀ x, h (g x) = g' (h x)) → h <$> alter g i l = alter g' i (h <$> l).
Proof.
  intros Hg. apply list_fmap_alter, Forall_forall. intros x _. apply Hg.
Qed.

Lemma same_keys_line f g cur line :
  same_keys f g →
  same_keys (sh_load_line (f, cur) line).1 (load_line (g, cur) line).1 ∧
  (sh_load_line (f, cur) line).2 = (load_line (g, cur) line).2.
Proof.
  intros HR. unfold sh_load_line, load_line.
  destruct (classify line) as [n| | |key value].
  - pose proof (same_keys_find n f g HR) as Hn.
    unfold sh_getOrCreateSection, getOrCreateSection.
    destruct (sh_getSection n f) as [[i s]|], (getSection n g) as [[j x]|];
      simplify_eq/=; [done|].
    split; [|by rewrite (same_keys_length f g)].
    unfold same_keys in *. simpl. by rewrite !fmap_app, HR.
  - done.
  - destruct cur as [i|]; [|done]. simpl.
    assert (same_keys f (mkIniFile (alter (sec_pushLine line) i (sections g)))) as HR'.
    { unfold same_keys in *. simpl. by rewrite fmap_alter_same. }
    by destruct (sh_sections f !! i).
  - destruct cur as [i|]; [|done]. simpl. split; [|done].
    unfold same_keys in *. simpl.
    rewrite (fmap_alter_comm bare _ (sec_set key value)) by done.
    rewrite (fmap_alter_comm strip_section _ (sec_set key value)) by done.
    by rewrite HR.
Qed.

Lemma same_keys_lines f g cur ls :
  same_keys f g →
  same_keys (foldl sh_load_line (f, cur) ls).1 (foldl load_line (g, cur) ls).1 ∧
  (foldl sh_load_line (f, cur) ls).2 = (foldl load_line (g, cur) ls).2.
Proof.
  revert f g cur. induction ls as [|l ls IH]; intros f g cur HR; [done|].
  cbn [foldl]. destruct (same_keys_line f g cur l HR) as [HR' Hc].
  destruct (sh_load_line (f, cur) l) as [f' c'], (load_line (g, cur) l) as [g' c''].
  simpl in *. subst c''. by apply IH.
Qed.

Lemma same_keys_value_of f g n k : same_keys f g → sh_value_of f n k = value_of g n k.
Proof.
  intros HR. pose proof (same_keys_find n f g HR) as Hn.
  unfold sh_value_of, value_of.
  destruct (sh_getSection n f) as [[i s]|], (getSection n g) as [[j x]|];
    simplify_eq/=; [|done].
  apply (f_equal values) in H0. simpl in H0. by rewrite H0.
Qed.

(** ** What [load] does to the sections and to the arrays *)

Lemma sh_extends_refl s : sh_extends s s.
Proof. by split_and!. Qed.

Lemma sh_extends_trans s1 s2 s3 : sh_extends s1 s2 → sh_extends s2 s3 → sh_extends s1 s3.
Proof.
  intros (Hn & Hl & Hk) (Hn' & Hl' & Hk'). split_and!; [congruence..|by etrans].
Qed.

Lemma sh_sec_set_extends key v s : sh_extends s (sh_sec_set key v s).
Proof.
  split_and!; [done..|]. unfold sh_sec_set. simpl.
  destruct (negb _); [by apply prefix_app_r|done].
Qed.

Lemma sh_getOrCreateSection_lookup n f j s :
  sh_sections f !! j = Some s → sh_sections (sh_getOrCreateSection n f).2 !! j = Some s.
Proof.
  unfold sh_getOrCreateSection. destruct (sh_getSection n f) as [[i s0]|]; simpl; [done|].
  apply lookup_app_l_Some.
Qed.

(** No line removes a section, replaces its array or removes a key. *)
Lemma sh_load_line_extends f cur line j s :
  sh_sections f !! j = Some s →
  ∃ s', sh_sections (sh_load_line (f, cur) line).1 !! j = Some s' ∧ sh_extends s s'.
Proof.
  intros Hj. unfold sh_load_line.
  destruct (classify line) as [n| | |key value].
  - pose proof (sh_getOrCreateSection_lookup n f j s Hj).
    destruct (sh_getOrCreateSection n f). simpl in *. eauto using sh_extends_refl.
  - eauto using sh_extends_refl.
  - destruct cur as [i|]; [|eauto using sh_extends_refl].
    destruct (sh_sections f !! i); simpl; eauto using sh_extends_refl.
  - destruct cur as [i|]; simpl; [|eauto using sh_extends_refl].
    rewrite list_lookup_alter. case_decide; subst.
    + rewrite Hj. simpl. eauto using sh_sec_set_extends.
    + eauto using sh_extends_refl.
Qed.

Lemma sh_load_lines_extends f cur ls j s :
  sh_sections f !! j = Some s →
  ∃ s', sh_sections (foldl sh_load_line (f, cur) ls).1 !! j = Some s' ∧ sh_extends s s'.
Proof.
  revert f cur s. induction ls as [|l ls IH]; intros f cur s Hj.
  - eauto using sh_extends_refl.
  - cbn [foldl]. destruct (sh_load_line_extends f cur l j s Hj) as (s1 & H1 & He1).
    destruct (sh_load_line (f, cur) l) as [f' cur']. simpl in H1.
    destruct (IH f' cur' s1 H1) as (s2 & H2 & He2).
    eauto using sh_extends_trans.
Qed.

(** No line removes a raw line from an array: every array only grows. *)
Lemma sh_load_line_grow f cur line a arr :
  sh_arrays f !! a = Some arr →
  ∃ arr', sh_arrays (sh_load_line (f, cur) line).1 !! a = Some arr' ∧ arr `prefix_of` arr'.
Proof.
  intros Ha. unfold sh_load_line.
  destruct (classify line) as [n| | |key value].
  - unfold sh_getOrCreateSection. destruct (sh_getSection n f) as [[i s0]|]; simpl.
    + eauto.
    + exists arr. split; [by apply lookup_app_l_Some|done].
  - eauto.
  - destruct cur as [i|]; [|eauto]. destruct (sh_sections f !! i) as [s|]; simpl; [|eauto].
    unfold sh_push. rewrite list_lookup_alter. case_decide; subst.
    + rewrite Ha. simpl. eexists. split; [done|]. by apply prefix_app_r.
    + eauto.
  - destruct cur as [i|]; simpl; eauto.
Qed.

Lemma sh_load_lines_grow f cur ls a arr :
  sh_arrays f !! a = Some arr →
  ∃ arr', sh_arrays (foldl sh_load_line (f, cur) ls).1 !! a = Some arr' ∧
          arr `prefix_of` arr'.
Proof.
  revert f cur arr. induction ls as [|l ls IH]; intros f cur arr Ha; [eauto|].
  cbn [foldl]. destruct (sh_load_line_grow f cur l a arr Ha) as (arr1 & H1 & Hp1).
  destruct (sh_load_line (f, cur) l) as [f' cur']. simpl in H1.
  destruct (IH f' cur' arr1 H1) as (arr2 & H2 & Hp2).
  exists arr2. split; [done|]. by etrans.
Qed.

(** A section whose name is not a header of the lines is never the current
    section, so no line changes it. *)
Lemma sh_load_line_cur_in (M : str → Prop) f cur line :
  cur_in M f cur → (∀ n, classify line = Header n → M n) →
  cur_in M (sh_load_line (f, cur) line).1 (sh_load_line (f, cur) line).2.
Proof.
  intros Hc Hh. unfold cur_in, sh_load_line.
  destruct (classify line) as [n| | |key value].
  - unfold sh_getOrCreateSection, sh_getSection.
    destruct (list_find _ (sh_sections f)) as [[i s0]|] eqn:Hf; simpl.
    + apply list_find_Some in Hf as (Hi & Hn & _).
      intros i' s [= <-] Hs. rewrite Hi in Hs. injection Hs as <-. rewrite Hn. by apply Hh.
    + intros i' s [= <-] Hs. rewrite lookup_app_r in Hs by done.
      rewrite Nat.sub_diag in Hs. injection Hs as <-. simpl. by apply Hh.
  - done.
  - destruct cur as [i|]; [|done]. by destruct (sh_sections f !! i).
  - destruct cur as [i|]; [|done]. simpl. intros i' s [= <-] Hs.
    rewrite list_lookup_alter_eq in Hs.
    destruct (sh_sections f !! i) as [s0|] eqn:Hi; [|done].
    injection Hs as <-. simpl. by apply (Hc i).
Qed.

Lemma sh_load_line_frame (M : str → Prop) f cur line j s :
  cur_in M f cur → sh_sections f !! j = Some s → ¬ M (sh_name s) →
  sh_sections (sh_load_line (f, cur) line).1 !! j = Some s.
Proof.
  intros Hc Hj Hn. unfold sh_load_line.
  destruct (classify line) as [n| | |key value].
  - pose proof (sh_getOrCreateSection_lookup n f j s Hj).
    by destruct (sh_getOrCreateSection n f).
  - done.
  - destruct cur as [i|]; [|done]. by destruct (sh_sections f !! i).
  - destruct cur as [i|]; [|done]. simpl.
    rewrite list_lookup_alter_ne; [done|]. intros ->. apply Hn. by apply (Hc j).
Qed.

Lemma sh_load_lines_frame (M : str → Prop) f cur ls j s :
  cur_in M f cur → (∀ line n, line ∈ ls → classify line = Header n → M n) →
  sh_sections f !! j = Some s → ¬ M (sh_name s) →
  sh_sections (foldl sh_load_line (f, cur) ls).1 !! j = Some s.
Proof.
  revert f cur. induction ls as [|l ls IH]; intros f cur Hc Hls Hj Hn; [done|].
  cbn [foldl].
  assert (∀ n, classify l = Header n → M n) as Hl.
  { intros n. apply Hls, list_elem_of_here. }
  pose proof (sh_load_line_cur_in M f cur l Hc Hl) as Hc'.
  pose proof (sh_load_line_frame M f cur l j s Hc Hj Hn) as Hj'.
  destruct (sh_load_line (f, cur) l) as [f' cur']. simpl in Hc', Hj'.
  apply IH; [done| |done..].
  intros line n Hin. by apply Hls, list_elem_of_further.
Qed.

(** An array that no section with a name in [M] refers to keeps its
    content. *)
Lemma sh_load_line_apart (M : str → Prop) a f cur line :
  array_apart M a f cur → (∀ n, classify line = Header n → M n) →
  array_apart M a (sh_load_line (f, cur) line).1 (sh_load_line (f, cur) line).2 ∧
  sh_arrays (sh_load_line (f, cur) line).1 !! a = sh_arrays f !! a.
Proof.
  intros (Ha & Hc & Hs) Hh.
  pose proof (sh_load_line_cur_in M f cur line Hc Hh) as Hc'.
  revert Hc'. unfold array_apart, cur_in, sh_load_line.
  destruct (classify line) as [n| | |key value].
  - unfold sh_getOrCreateSection, sh_getSection.
    destruct (list_find _ (sh_sections f)) as [[i s0]|] eqn:Hf; simpl; intros Hc'.
    + by split_and!.
    + split_and!.
      * rewrite length_app. simpl. lia.
      * done.
      * intros j s Hj Hm. apply lookup_app_Some in Hj as [Hj|[_ Hj]]; [by eapply Hs|].
        apply list_lookup_singleton_Some in Hj as [_ <-]. simpl. lia.
      * by apply lookup_app_l.
  - intros _. by split_and!.
  - destruct cur as [i|]; [|intros _; by split_and!].
    destruct (sh_sections f !! i) as [s|] eqn:Hi; simpl; intros Hc'; [|by split_and!].
    assert (sh_lines s ≠ a) as Hne by (eapply Hs; [done|by eapply Hc]).
    unfold sh_push. split_and!.
    + by rewrite length_alter.
    + done.
    + done.
    + by apply list_lookup_alter_ne.
  - destruct cur as [i|]; simpl; intros Hc'; [|by split_and!].
    split_and!; [done..| |done].
    intros j s Hj Hm. rewrite list_lookup_alter in Hj. case_decide; subst.
    + destruct (sh_sections f !! j) as [s0|] eqn:Hj0; [|done].
      injection Hj as <-. simpl in *. by eapply Hs.
    + by eapply Hs.
Qed.

Lemma sh_load_lines_apart (M : str → Prop) a f cur ls :
  array_apart M a f cur → (∀ line n, line ∈ ls → classify line = Header n → M n) →
  sh_arrays (foldl sh_load_line (f, cur) ls).1 !! a = sh_arrays f !! a.
Proof.
  revert f cur. induction ls as [|l ls IH]; intros f cur Ha Hls; [done|].
  cbn [foldl].
  assert (∀ n, classify l = Header n → M n) as Hl.
  { intros n. apply Hls, list_elem_of_here. }
  destruct (sh_load_line_apart M a f cur l Ha Hl) as [Ha' Heq].
  destruct (sh_load_line (f, cur) l) as [f' cur']. simpl in Ha', Heq.
  rewrite <- Heq. apply IH; [done|].
  intros line n Hin. by apply Hls, list_elem_of_further.
Qed.

(** Every section afterwards was there or has a header among the lines. *)
Lemma sh_load_lines_elem f cur ls s' :
  s' ∈ sh_sections (foldl sh_load_line (f, cur) ls).1 →
  (∃ s, s ∈ sh_sections f ∧ sh_name s = sh_name s')
  ∨ (∃ line, line ∈ ls ∧ classify line = Header (sh_name s')).
Proof.
  intros Hs. apply (list_elem_of_fmap_2 bare) in Hs.
  destruct (same_keys_lines f (mkIniFile (bare <$> sh_sections f)) cur ls) as [HR _].
  { unfold same_keys. simpl. rewrite <- list_fmap_compose. by apply list_fmap_ext. }
  unfold same_keys in HR. rewrite HR in Hs.
  apply list_elem_of_fmap in Hs as (x & Hx & Hin).
  apply load_lines_elem in Hin as [(s0 & Hs0 & Hn0)|(line & Hin & Hh)].
  - left. simpl in Hs0. apply list_elem_of_fmap in Hs0 as (s & -> & Hs).
    exists s. split; [done|]. simpl in Hn0. rewrite Hn0.
    by apply (f_equal name) in Hx.
  - right. exists line. split; [done|]. rewrite Hh.
    apply (f_equal name) in Hx. simpl in Hx. by rewrite Hx.
Qed.

Lemma same_keys_bare f : same_keys f (mkIniFile (bare <$> sh_sections f)).
Proof.
  unfold same_keys. simpl. rewrite <- list_fmap_compose. by apply list_fmap_ext.
Qed.

Lemma sh_load_lines_value f ls n k :
  sh_value_of (foldl sh_load_line (f, None) ls).1 n k
  = match assigned None ls n k with
    | Some v => Some v
    | None => sh_value_of f n k
    end.
Proof.
  destruct (same_keys_lines f _ None ls (same_keys_bare f)) as [HR _].
  rewrite (same_keys_value_of _ _ n k HR), (same_keys_value_of _ _ n k (same_keys_bare f)).
  by apply (load_lines_value _ None None).
Qed.

(** ** [load] and the data that is there *)




(** ** Documents in which no array is shared *)

(** Where every section has an array of its own, the document by value after
    a line is what the line does to the document by value. *)
Lemma snapshot_section_app arrays extra s :
  (sh_lines s < length arrays)%nat →
  snapshot_section (arrays ++ extra) s = snapshot_section arrays s.
Proof. intros Hs. unfold snapshot_section. by rewrite lookup_app_l. Qed.

Lemma snapshot_getOrCreateSection n f :
  sh_valid f → unshared f →
  snapshot (sh_getOrCreateSection n f).2 = (getOrCreateSection n (snapshot f)).2 ∧
  (sh_getOrCreateSection n f).1 = (getOrCreateSection n (snapshot f)).1 ∧
  sh_valid (sh_getOrCreateSection n f).2 ∧ unshared (sh_getOrCreateSection n f).2.
Proof.
  intros Hv Hu. unfold sh_getOrCreateSection, getOrCreateSection.
  rewrite getSection_snapshot.
  destruct (sh_getSection n f) as [[i s]|]; simpl; [done|].
  split_and!.
  - unfold snapshot. simpl. f_equal. rewrite fmap_app. f_equal.
    + apply Forall_fmap_ext. eapply Forall_impl; [exact Hv|].
      intros s Hs. by apply snapshot_section_app.
    + simpl. unfold snapshot_section, new_Section. simpl.
      by rewrite lookup_app_r, Nat.sub_diag.
  - by rewrite length_fmap.
  - unfold sh_valid in *. simpl. rewrite length_app. simpl.
    apply Forall_app. split.
    + eapply Forall_impl; [exact Hv|]. simpl. intros; lia.
    + apply Forall_cons. split; [simpl; lia|by apply Forall_nil].
  - unfold unshared in *. simpl. rewrite fmap_app. apply NoDup_app. split_and!.
    + done.
    + intros a Ha Hn. simpl in Hn. apply list_elem_of_singleton in Hn as ->.
      apply list_elem_of_fmap in Ha as (s & Hs & Hin).
      pose proof (proj1 (Forall_forall _ _) Hv s Hin) as Hlt. simpl in Hlt. lia.
    + simpl. apply NoDup_singleton.
Qed.

Lemma snapshot_push f i s line :
  sh_valid f → unshared f → sh_sections f !! i = Some s →
  snapshot (mkShFile (sh_sections f) (sh_push (sh_lines s) line (sh_arrays f)))
  = mkIniFile (alter (sec_pushLine line) i (sections (snapshot f))).
Proof.
  intros Hv Hu Hi. unfold snapshot. simpl. f_equal. apply list_eq. intros j.
  rewrite list_lookup_fmap. destruct (decide (j = i)) as [->|Hne].
  - rewrite list_lookup_alter_eq, list_lookup_fmap, Hi. simpl. f_equal.
    unfold snapshot_section, sec_pushLine, sh_push. simpl.
    rewrite list_lookup_alter_eq.
    pose proof (proj1 (Forall_forall _ _) Hv s (list_elem_of_lookup_2 _ _ _ Hi)) as Hlt.
    simpl in Hlt. apply lookup_lt_is_Some_2 in Hlt as [arr Harr].
    by rewrite Harr.
  - rewrite list_lookup_alter_ne, list_lookup_fmap by done.
    destruct (sh_sections f !! j) as [s'|] eqn:Hj; [|done]. simpl. f_equal.
    unfold snapshot_section, sh_push. rewrite list_lookup_alter_ne; [done|].
    intros Heq. apply Hne. symmetry.
    apply (NoDup_lookup _ i j (sh_lines s) Hu); rewrite list_lookup_fmap.
    + by rewrite Hi.
    + rewrite Hj. simpl. by rewrite Heq.
Qed.

Lemma snapshot_load_line f cur line :
  sh_valid f → unshared f →
  snapshot (sh_load_line (f, cur) line).1 = (load_line (snapshot f, cur) line).1 ∧
  (sh_load_line (f, cur) line).2 = (load_line (snapshot f, cur) line).2 ∧
  sh_valid (sh_load_line (f, cur) line).1 ∧ unshared (sh_load_line (f, cur) line).1.
Proof.
  intros Hv Hu. unfold sh_load_line, load_line.
  destruct (classify line) as [n| | |key value].
  - pose proof (snapshot_getOrCreateSection n f Hv Hu) as H.
    destruct (sh_getOrCreateSection n f) as [i f'].
    destruct (getOrCreateSection n (snapshot f)) as [i' g'].
    simpl in *. destruct H as (-> & -> & ? & ?). done.
  - done.
  - destruct cur as [i|]; [|done].
    destruct (sh_sections f !! i) as [s|] eqn:Hi; simpl.
    + split_and!; [by apply snapshot_push|done| |done].
      unfold sh_valid, sh_push in *. simpl. by rewrite length_alter.
    + split_and!; [|done..]. unfold snapshot. simpl. f_equal.
      apply list_eq. intros j. destruct (decide (j = i)) as [->|Hne].
      * by rewrite list_lookup_alter_eq, list_lookup_fmap, Hi.
      * by rewrite list_lookup_alter_ne.
  - destruct cur as [i|]; [|done]. simpl. split_and!.
    + unfold snapshot. simpl. f_equal.
      by apply (fmap_alter_comm _ _ (sec_set key value)).
    + done.
    + unfold sh_valid in *. simpl. apply Forall_alter; [done|].
      intros s _ Hs. exact Hs.
    + unfold unshared in *. simpl. by rewrite fmap_alter_same.
Qed.

Lemma snapshot_load_lines f cur ls :
  sh_valid f → unshared f →
  snapshot (foldl sh_load_line (f, cur) ls).1 = (foldl load_line (snapshot f, cur) ls).1 ∧
  sh_valid (foldl sh_load_line (f, cur) ls).1 ∧
  unshared (foldl sh_load_line (f, cur) ls).1.
Proof.
  revert f cur. induction ls as [|l ls IH]; intros f cur Hv Hu; [done|].
  cbn [foldl]. destruct (snapshot_load_line f cur l Hv Hu) as (Hs & Hc & Hv' & Hu').
  destruct (sh_load_line (f, cur) l) as [f' c'], (load_line (snapshot f, cur) l) as [g' c''].
  simpl in *. subst. by apply IH.
Qed.

(** [load] on the store and [load] on the document by value agree where no
    array is shared, and no array is shared afterwards. *)
Lemma snapshot_load input f :
  sh_valid f → unshared f →
  snapshot (sh_load input true f).2 = (load input true (snapshot f)).2 ∧
  snapshot (sh_load input false f).2 = (load input false (snapshot f)).2 ∧
  sh_valid (sh_load input true f).2 ∧ unshared (sh_load input true f).2.
Proof.
  intros Hv Hu. rewrite !sh_load_eq, !load_eq. cbn [snd].
  destruct (snapshot_load_lines f None (source_lines input) Hv Hu) as (Hs & Hv' & Hu').
  split_and!; [done| |done..].
  apply (snapshot_load_lines (mkShFile [] (sh_arrays f)) None (source_lines input)).
  - apply Forall_nil. done.
  - apply NoDup_nil. done.
Qed.



(** Where two sections were given one array, the raw lines of the one depend
    on the lines read under the header of the other. *)
Example load_by_section_shared :
  section_of (lit "B") (snapshot (sh_load cx_shared_input true cx_shared).2)
  ≠ section_view None (source_lines cx_shared_input) (lit "B")
                 (section_of (lit "B") (snapshot cx_shared)).
Proof. by vm_compute. Qed.


